(** * Model names and digests (package [model], file types/model/name.go)

    A shallow embedding of the Go package that parses, validates, formats
    and hashes model names of the form
    [[host/][namespace/]<model>[:tag][@digest]], together with the digest
    micro-format [type-hash].

    Go strings are byte sequences: they are modelled as [list ascii].
    Go [int] values are modelled as [Z].  A [for i := range s] loop over
    a string steps from one UTF-8 encoded code point to the next: it is
    modelled by the list [range s] of the pairs [(i, s[i])] it visits.
    A run-time panic (an index out of range) is modelled by the [Panic]
    outcome of the [result] type. *)

From Stdlib Require Import List Ascii String ZArith Lia Bool.
Import ListNotations.

Open Scope string_scope.
Open Scope list_scope.
Open Scope Z_scope.

(** ** Strings and bytes *)

Abbreviation gostring := (list ascii).

(** String literals are written as Rocq strings and read as byte lists. *)
Coercion list_ascii_of_string : string >-> list.

(** The numeric value of a byte. *)
Definition byte_val (c : ascii) : Z := Z.of_N (N_of_ascii c).

Definition byte_of_Z (z : Z) : ascii := ascii_of_N (Z.to_N (z mod 256)).

(** Go's [len]. *)
Definition len {A : Type} (s : list A) : Z := Z.of_nat (List.length s).

(** Go's [==] on strings. *)
Fixpoint streq (a b : gostring) : bool :=
  match a, b with
  | [], [] => true
  | x :: a', y :: b' => Ascii.eqb x y && streq a' b'
  | _, _ => false
  end.

(** Go's slice expressions [s[:i]] and [s[i:]], for [0 <= i <= len s]. *)
Definition slice_to (s : gostring) (i : Z) : gostring := firstn (Z.to_nat i) s.
Definition slice_from (s : gostring) (i : Z) : gostring := skipn (Z.to_nat i) s.

(** Outcome of a call that may panic. *)
Inductive result (A : Type) : Type :=
| Ok (a : A)
| Panic.
Arguments Ok {A} a.
Arguments Panic {A}.

(** ** The parts of the Go run time and standard library the package uses *)

Module runtime.

(** A continuation byte of a UTF-8 sequence ([locb <= b <= hicb]). *)
Definition isCont (b : ascii) : bool :=
  (128 <=? byte_val b) && (byte_val b <=? 191).

(** The payload bits of a continuation byte ([b & maskx]). *)
Definition payload (b : ascii) : Z := Z.land (byte_val b) 63.

(** The number of bytes by which a [range] loop advances at the head of
    [s]: the width of the UTF-8 sequence that [decoderune] accepts
    there, and 1 on a byte below [RuneSelf] and on an invalid
    sequence. *)
Definition runeWidth (s : gostring) : nat :=
  match s with
  | [] => 1%nat
  | b0 :: s1 =>
      let v0 := byte_val b0 in
      if v0 <? 128 then 1%nat
      else if (192 <=? v0) && (v0 <? 224) then
        match s1 with
        | b1 :: _ =>
            if isCont b1 then
              let r := Z.lor (Z.shiftl (Z.land v0 31) 6) (payload b1) in
              if 127 <? r then 2%nat else 1%nat
            else 1%nat
        | _ => 1%nat
        end
      else if (224 <=? v0) && (v0 <? 240) then
        match s1 with
        | b1 :: b2 :: _ =>
            if isCont b1 && isCont b2 then
              let r := Z.lor (Z.lor (Z.shiftl (Z.land v0 15) 12)
                                    (Z.shiftl (payload b1) 6))
                             (payload b2) in
              if (2047 <? r) && negb ((55296 <=? r) && (r <=? 57343))
              then 3%nat else 1%nat
            else 1%nat
        | _ => 1%nat
        end
      else if (240 <=? v0) && (v0 <? 248) then
        match s1 with
        | b1 :: b2 :: b3 :: _ =>
            if isCont b1 && isCont b2 && isCont b3 then
              let r := Z.lor (Z.lor (Z.lor (Z.shiftl (Z.land v0 7) 18)
                                           (Z.shiftl (payload b1) 12))
                                    (Z.shiftl (payload b2) 6))
                             (payload b3) in
              if (65535 <? r) && (r <=? 1114111) then 4%nat else 1%nat
            else 1%nat
        | _ => 1%nat
        end
      else 1%nat
  end.

(** The iterations of [for i := range s] from byte index [i] on, when
    the next [skip] bytes belong to the code point just visited. *)
Fixpoint range_from (i : Z) (skip : nat) (s : gostring) : list (Z * ascii) :=
  match s with
  | [] => []
  | c :: s' =>
      match skip with
      | S skip' => range_from (i + 1) skip' s'
      | O => (i, c) :: range_from (i + 1) (Nat.pred (runeWidth s)) s'
      end
  end.

(** [for i := range s]: the pairs [(i, s[i])] of its iterations. *)
Definition range (s : gostring) : list (Z * ascii) := range_from 0 0 s.

End runtime.

Module strings.

(** [strings.HasPrefix]. *)
Fixpoint HasPrefix (s prefix : gostring) {struct prefix} : bool :=
  match prefix, s with
  | [], _ => true
  | p :: prefix', c :: s' => Ascii.eqb c p && HasPrefix s' prefix'
  | _ :: _, [] => false
  end.

(** [strings.LastIndex]: the index of the last instance of [substr] in
    [s], or [-1] if [substr] is not present in [s]. *)
Fixpoint LastIndex (s substr : gostring) : Z :=
  match s with
  | [] => if HasPrefix [] substr then 0 else -1
  | _ :: s' =>
      let r := LastIndex s' substr in
      if 0 <=? r then 1 + r
      else if HasPrefix s substr then 0 else -1
  end.

(** [strings.Contains]. *)
Definition Contains (s substr : gostring) : bool := 0 <=? LastIndex s substr.

End strings.

Module cmp.

(** [cmp.Or] on two strings: the first argument that is not the zero
    value (the empty string). *)
Definition Or (a b : gostring) : gostring :=
  if negb (streq a "") then a else b.

End cmp.

Module hex.

Definition hextable : gostring := "0123456789abcdef".

(** [reverseHexTable]: the value of a hexadecimal digit, [0xff] for every
    other byte. *)
Definition reverseHexTable (c : ascii) : Z :=
  let v := byte_val c in
  if (byte_val "0" <=? v) && (v <=? byte_val "9") then v - byte_val "0"
  else if (byte_val "a" <=? v) && (v <=? byte_val "f") then v - byte_val "a" + 10
  else if (byte_val "A" <=? v) && (v <=? byte_val "F") then v - byte_val "A" + 10
  else 255.

Inductive error : Type :=
| InvalidByteError (b : ascii)
| ErrLength.

(** Assignment [dst[i] = v] for an index in range. *)
Fixpoint store (dst : list Z) (i : nat) (v : Z) : list Z :=
  match dst, i with
  | [], _ => []
  | _ :: dst', O => v :: dst'
  | x :: dst', S i' => x :: store dst' i' v
  end.

(** The loop of [hex.Decode]: [src] is what is left to read from index
    [j-1] on, [i] the number of bytes written.  The assignment [dst[i]]
    panics when [i] is not below [len dst]. *)
Fixpoint Decode_loop (dst : list Z) (i : Z) (src : gostring)
  : result (list Z * Z * option error) :=
  match src with
  | p :: q :: src' =>
      let a := reverseHexTable p in
      let b := reverseHexTable q in
      if 15 <? a then Ok (dst, i, Some (InvalidByteError p))
      else if 15 <? b then Ok (dst, i, Some (InvalidByteError q))
      else if i <? len dst
           then Decode_loop (store dst (Z.to_nat i) (Z.lor (Z.shiftl a 4) b))
                            (i + 1) src'
           else Panic
  | [p] =>
      if 15 <? reverseHexTable p then Ok (dst, i, Some (InvalidByteError p))
      else Ok (dst, i, Some ErrLength)
  | [] => Ok (dst, i, None)
  end.

(** [hex.Decode dst src]: the bytes of [dst] after the call, the number
    of bytes written and the error, or a panic. *)
Definition Decode (dst : list Z) (src : gostring)
  : result (list Z * Z * option error) :=
  Decode_loop dst 0 src.

(** [hex.EncodeToString]. *)
Definition EncodeToString (src : list Z) : gostring :=
  flat_map (fun v => [nth (Z.to_nat (Z.shiftr v 4)) hextable "0"%char;
                      nth (Z.to_nat (Z.land v 15)) hextable "0"%char]) src.

End hex.

Module maphash.

(** A [maphash.Hash]: its seed and the bytes written to it so far. *)
Record Hash : Type := mkHash { seed : Z; written : gostring }.

Definition SetSeed (h : Hash) (s : Z) : Hash :=
  {| seed := s; written := [] |}.

Definition WriteByte (h : Hash) (b : ascii) : Hash :=
  {| seed := seed h; written := written h ++ [b] |}.

(** The zero value [var h maphash.Hash]. *)
Definition zero : Hash := {| seed := 0; written := [] |}.

End maphash.

(** ** The package *)

Definition MissingPart : gostring := "!MISSING!".

Definition partKind := Z.
Definition kindHost : partKind := 0.
Definition kindNamespace : partKind := 1.
Definition kindModel : partKind := 2.
Definition kindTag : partKind := 3.
Definition kindDigest : partKind := 4.

Record Name : Type := mkName {
  host : gostring;
  namespace : gostring;
  model : gostring;
  tag : gostring;
  rawDigest : gostring
}.

Definition DigestType := Z.
Definition DigestTypeSHA256 : DigestType := 1.

(** [Hash] is a [[32]byte]: a list of 32 bytes, each in [0, 256). *)
Record Digest : Type := mkDigest {
  Type_ : DigestType;
  Hash : list Z
}.

Definition isAlphanumeric (c : ascii) : bool :=
  let v := byte_val c in
  (byte_val "A" <=? v) && (v <=? byte_val "Z")
  || (byte_val "a" <=? v) && (v <=? byte_val "z")
  || (byte_val "0" <=? v) && (v <=? byte_val "9").

Definition isValidLen (kind : partKind) (s : gostring) : bool :=
  if kind =? kindHost then (1 <=? len s) && (len s <=? 350)
  else if kind =? kindTag then (1 <=? len s) && (len s <=? 80)
  else (2 <=? len s) && (len s <=? 80).

(** The [for i := range s] loop of [isValidPart], on the iterations that
    are left. *)
Fixpoint isValidPart_loop (kind : partKind) (iters : list (Z * ascii)) : bool :=
  match iters with
  | [] => true
  | (i, c) :: iters' =>
      if i =? 0 then
        if negb (isAlphanumeric c) then false
        else isValidPart_loop kind iters'
      else if Ascii.eqb c "_" || Ascii.eqb c "-" then
        isValidPart_loop kind iters'
      else if Ascii.eqb c "." then
        if kind =? kindNamespace then false
        else isValidPart_loop kind iters'
      else if Ascii.eqb c ":" then
        if negb (kind =? kindHost) then false
        else isValidPart_loop kind iters'
      else
        if negb (isAlphanumeric c) then false
        else isValidPart_loop kind iters'
  end.

Definition isValidPart (kind : partKind) (s : gostring) : bool :=
  if negb (isValidLen kind s) then false
  else isValidPart_loop kind (runtime.range s).

Definition IsValidShort (namespace model : gostring) : bool :=
  isValidPart kindNamespace namespace && isValidPart kindModel model.

Definition cutLast (s sep : gostring) : gostring * gostring * bool :=
  let i := strings.LastIndex s sep in
  if 0 <=? i then (slice_to s i, slice_from s (i + len sep), true)
  else (s, [], false).

Definition cutPromised (s sep : gostring) : gostring * gostring * bool :=
  let '(before, after, ok) := cutLast s sep in
  if negb ok then (before, after, false)
  else (cmp.Or before MissingPart, cmp.Or after MissingPart, true).

Module DigestType.

Definition String (t : DigestType) : gostring :=
  if t =? DigestTypeSHA256 then "sha256" else "unknown".

End DigestType.

Module Digest.

(** The zero value [Digest{}]. *)
Definition zero : Digest := {| Type_ := 0; Hash := repeat 0 32 |}.

Definition IsValid (d : Digest) : bool :=
  if negb (Type_ d =? DigestTypeSHA256) then false
  else negb (if list_eq_dec Z.eq_dec (Hash d) (repeat 0 32) then true else false).

Definition String (d : Digest) : gostring :=
  let b : gostring := [] in
  let b := b ++ DigestType.String (Type_ d) in
  let b := b ++ ["-"%char] in
  let b := b ++ hex.EncodeToString (Hash d) in
  b.

End Digest.

(** What [ParseDigest] does once [typ] and [hash] have been cut. *)
Definition ParseDigest_decode (typ hash : gostring) : result Digest :=
  if negb (streq typ "sha256") then Ok Digest.zero
  else
    match hex.Decode (Hash Digest.zero) hash with
    | Panic => Panic
    | Ok (dHash, n, err) =>
        match err with
        | Some _ => Ok Digest.zero
        | None =>
            if negb (n =? 32) then Ok Digest.zero
            else Ok {| Type_ := DigestTypeSHA256; Hash := dHash |}
        end
    end.

Definition ParseDigest (s : gostring) : result Digest :=
  let '(typ, hash, ok) := cutLast s ":" in
  if negb ok then
    let '(typ, hash, ok) := cutLast s "-" in
    if negb ok then Ok Digest.zero
    else ParseDigest_decode typ hash
  else ParseDigest_decode typ hash.

Module Name.

(** The zero value [Name{}]. *)
Definition zero : Name :=
  {| host := ""; namespace := ""; model := ""; tag := ""; rawDigest := "" |}.

Definition Digest (n : Name) : result Digest := ParseDigest (rawDigest n).

Definition parts (n : Name) : list gostring :=
  [host n; namespace n; model n; tag n; rawDigest n].

(** The [for i, part := range parts] loop of [IsValid], from index [i]. *)
Fixpoint IsValid_loop (i : Z) (ps : list gostring) : bool :=
  match ps with
  | [] => true
  | part :: ps' =>
      if negb (streq part "") && negb (isValidPart i part) then false
      else IsValid_loop (i + 1) ps'
  end.

Definition IsValid (n : Name) : bool :=
  if streq (model n) "" && streq (rawDigest n) "" then false
  else IsValid_loop 0 (parts n).

Definition String (n : Name) : gostring :=
  if negb (IsValid n) then ""
  else
    let b : gostring := [] in
    let b := if negb (streq (host n) "")
             then (b ++ host n) ++ ["/"%char] else b in
    let b := if negb (streq (namespace n) "")
             then (b ++ namespace n) ++ ["/"%char] else b in
    let b := b ++ model n in
    let b := if negb (streq (tag n) "")
             then (b ++ [":"%char]) ++ tag n else b in
    let b := if negb (streq (rawDigest n) "")
             then (b ++ ["@"%char]) ++ rawDigest n else b in
    b.

Definition Merge (n o : Name) : Name :=
  {| host := cmp.Or (host n) (host o);
     namespace := cmp.Or (namespace n) (namespace o);
     model := model n;
     tag := cmp.Or (tag n) (tag o);
     rawDigest := rawDigest n |}.

Definition writeLower (w : maphash.Hash) (s : gostring) : maphash.Hash :=
  fold_left
    (fun w '(i, c) =>
       if (byte_val "A" <=? byte_val c) && (byte_val c <=? byte_val "Z")
       then maphash.WriteByte w
              (byte_of_Z (byte_val c - byte_val "A" + byte_val "a"))
       else maphash.WriteByte w c)
    (runtime.range s) w.

Section Hashing.

(** The process-wide seed, and the hash that [Sum64] computes from the
    seed and the bytes written. *)
Variable mapHashSeed : Z.
Variable rthash : Z -> gostring -> Z.

Definition Sum64 (h : maphash.Hash) : Z :=
  rthash (maphash.seed h) (maphash.written h).

Definition MapHash (n : Name) : Z :=
  let h := maphash.zero in
  let h := maphash.SetSeed h mapHashSeed in
  let h := writeLower h (host n) in
  let h := writeLower h (namespace n) in
  let h := writeLower h (model n) in
  let h := writeLower h (tag n) in
  let h := writeLower h (rawDigest n) in
  Sum64 h.

Definition Equal (n o : Name) : bool := MapHash n =? MapHash o.

End Hashing.

End Name.

Definition DefaultName : Name :=
  {| host := "registry.ollama.ai";
     namespace := "library";
     model := "";
     tag := "latest";
     rawDigest := "" |}.

Definition ParseNameNoDefaults (s : gostring) : Name :=
  let '(s, rawDigest0, promised) := cutLast s "@" in
  let rawDigest0 :=
    if promised && streq rawDigest0 "" then MissingPart else rawDigest0 in
  let '(s, tag0, _) := cutPromised s ":" in
  let '(s, model0, promised) := cutPromised s "/" in
  if negb promised then
    {| host := ""; namespace := ""; model := s; tag := tag0;
       rawDigest := rawDigest0 |}
  else
    let '(s, namespace0, promised) := cutPromised s "/" in
    if negb promised then
      {| host := ""; namespace := s; model := model0; tag := tag0;
         rawDigest := rawDigest0 |}
    else
      {| host := s; namespace := namespace0; model := model0; tag := tag0;
         rawDigest := rawDigest0 |}.

Definition ParseName (s : gostring) : Name :=
  Name.Merge (ParseNameNoDefaults s) DefaultName.

(** ** Vocabulary of the statements *)

Definition validSHA256Hex : gostring :=
  "abcdef0123456789abcdef0123456789abcdef0123456789abcdef0123456789".

Definition part80 : gostring := repeat "8"%char 80.
Definition part350 : gostring := repeat "3"%char 350.

(** The table [testCases] of the package's tests: name and validity. *)
Definition testCases : list (gostring * bool) :=
  [ ("host/namespace/model:tag" : gostring, true);
    ("host/namespace/model" : gostring, true);
    ("namespace/model" : gostring, true);
    ("model" : gostring, true);
    ("@dd" : gostring, true);
    ("model@dd" : gostring, true);
    (part80 ++ "/" ++ part80 ++ "/" ++ part80 ++ ":" ++ part80, true);
    (part350 ++ "/" ++ part80 ++ "/" ++ part80 ++ ":" ++ part80, true);
    ("h/nn/mm:t@dd" : gostring, true);
    ("m" : gostring, false);
    ("n/mm:" : gostring, false);
    ("h/n/mm:t" : gostring, false);
    ("@t" : gostring, false);
    ("mm@d" : gostring, false);
    ("^" : gostring, false);
    ("mm:" : gostring, false);
    ("/nn/mm" : gostring, false);
    ("//" : gostring, false);
    ("//mm" : gostring, false);
    ("hh//" : gostring, false);
    ("//mm:@" : gostring, false);
    ("00@" : gostring, false);
    ("@" : gostring, false);
    ("-hh/nn/mm:tt@dd" : gostring, false);
    ("hh/-nn/mm:tt@dd" : gostring, false);
    ("hh/nn/-mm:tt@dd" : gostring, false);
    ("hh/nn/mm:-tt@dd" : gostring, false);
    ("hh/nn/mm:tt@-dd" : gostring, false);
    ("" : gostring, false);
    ("host:https/namespace/model:tag" : gostring, true);
    ("host/name:space/model:tag" : gostring, false) ].

(** The table of [TestIsValidPart]. *)
Definition partCases : list (partKind * gostring * bool) :=
  [ (kindHost, "" : gostring, false);
    (kindHost, "a" : gostring, true);
    (kindHost, "a." : gostring, true);
    (kindHost, "a.b" : gostring, true);
    (kindHost, "a:123" : gostring, true);
    (kindHost, "a:123/aa/bb" : gostring, false);
    (kindNamespace, "bb" : gostring, true);
    (kindNamespace, "a." : gostring, false);
    (kindModel, "-h" : gostring, false);
    (kindDigest, "dd" : gostring, true) ].

(** The table of [TestParseDigest]. *)
Definition digestCases : list (gostring * bool) :=
  [ ("sha256:" ++ validSHA256Hex, true);
    ("sha256-" ++ validSHA256Hex, true);
    ("" : gostring, false);
    ("sha134:" ++ validSHA256Hex, false);
    ("sha256:" ++ validSHA256Hex ++ "x", false);
    ("sha256:x" ++ validSHA256Hex, false);
    ("sha256-" ++ validSHA256Hex ++ "x", false);
    ("sha256-x" : gostring, false) ].

(** What [cutLast] returns, as a view on its argument. *)
Inductive cut_spec (c : ascii) (s : gostring)
  : gostring * gostring * bool -> Prop :=
| cut_absent : ~ In c s -> cut_spec c s (s, [], false)
| cut_present (a b : gostring) :
    s = a ++ c :: b -> ~ In c b -> cut_spec c s (a, b, true).

(** The bytes that [isValidPart] lets through after the first one. *)
Definition partChar (kind : partKind) (c : ascii) : bool :=
  isAlphanumeric c || Ascii.eqb c "_" || Ascii.eqb c "-"
  || Ascii.eqb c "." && negb (kind =? kindNamespace)
  || Ascii.eqb c ":" && (kind =? kindHost).

(** A field passes when it is empty or a valid part of its kind. *)
Definition okPart (kind : partKind) (p : gostring) : Prop :=
  p = [] \/ isValidPart kind p = true.

(** A field followed by its separator, and a separator followed by its
    field, when the field is present. *)
Definition withSlash (p : gostring) : gostring :=
  match p with [] => [] | _ => p ++ ["/"%char] end.

Definition withLead (c : ascii) (p : gostring) : gostring :=
  match p with [] => [] | _ => c :: p end.

(** The parser from its cuts at ['/'] on: [p] is what is left of the input
    once the digest and the tag have been cut off. *)
Definition parsePath (p tag0 rawDigest0 : gostring) : Name :=
  let '(s, model0, promised) := cutPromised p "/" in
  if negb promised then
    {| host := ""; namespace := ""; model := s; tag := tag0;
       rawDigest := rawDigest0 |}
  else
    let '(s, namespace0, promised) := cutPromised s "/" in
    if negb promised then
      {| host := ""; namespace := s; model := model0; tag := tag0;
         rawDigest := rawDigest0 |}
    else
      {| host := s; namespace := namespace0; model := model0; tag := tag0;
         rawDigest := rawDigest0 |}.

(** The shape of the names that the parser returns. *)
Definition canonical (n : Name) : Prop :=
  (host n <> [] -> namespace n <> [])
  /\ (model n = [] -> host n = [] /\ namespace n = [] /\ tag n = [])
  /\ (tag n = [] -> ~ In ":"%char (host n)).

(** A valid name with a host and no namespace. *)
Definition hostOnly : Name :=
  {| host := "hh"; namespace := ""; model := "mm"; tag := "";
     rawDigest := "" |}.

(** The hexadecimal digits, in either case. *)
Definition isHexDigit (c : ascii) : bool :=
  let v := byte_val c in
  (byte_val "0" <=? v) && (v <=? byte_val "9")
  || (byte_val "a" <=? v) && (v <=? byte_val "f")
  || (byte_val "A" <=? v) && (v <=? byte_val "F").

(** The bytes that a string of hexadecimal digits stands for, two digits
    to a byte. *)
Fixpoint hexBytes (h : gostring) : list Z :=
  match h with
  | p :: q :: h' =>
      Z.lor (Z.shiftl (hex.reverseHexTable p) 4) (hex.reverseHexTable q)
      :: hexBytes h'
  | _ => []
  end.

Definition zeros64 : gostring := repeat "0"%char 64.

(** A [Digest] whose [Hash] is a [[32]byte]. *)
Definition wf_Digest (d : Digest) : Prop :=
  List.length (Hash d) = 32%nat /\ Forall (fun b => 0 <= b < 256) (Hash d).

(** The bytes [s[i]] that a [for i := range s] loop reads. *)
Definition visited (s : gostring) : gostring := map snd (runtime.range s).

(** The byte that [writeLower] writes for [c]. *)
Definition lowerByte (c : ascii) : ascii :=
  if (byte_val "A" <=? byte_val c) && (byte_val c <=? byte_val "Z")
  then byte_of_Z (byte_val c - byte_val "A" + byte_val "a")
  else c.

(** Two names whose fields are equal, field by field, up to the case of
    ASCII letters. *)
Definition fieldsEqualFold (n o : Name) : Prop :=
  map lowerByte (host n) = map lowerByte (host o)
  /\ map lowerByte (namespace n) = map lowerByte (namespace o)
  /\ map lowerByte (model n) = map lowerByte (model o)
  /\ map lowerByte (tag n) = map lowerByte (tag o)
  /\ map lowerByte (rawDigest n) = map lowerByte (rawDigest o).

(** The bytes that occur in the string of a valid name. *)
Definition nameByte (c : ascii) : bool :=
  isAlphanumeric c || Ascii.eqb c "_" || Ascii.eqb c "-" || Ascii.eqb c "."
  || Ascii.eqb c ":" || Ascii.eqb c "/" || Ascii.eqb c "@".

(** The number of occurrences of the byte [c] in [s]. *)
Definition countByte (c : ascii) (s : gostring) : nat := count_occ ascii_dec s c.

(** * Properties *)

(** ** The test tables of the package, evaluated on the embedding *)

(** [TestIsValid]: validity, and the round trip on the valid names. *)
Example test_IsValid :
  forallb
    (fun '(s, want) =>
       Bool.eqb (Name.IsValid (ParseNameNoDefaults s)) want
       && (negb want || streq (Name.String (ParseNameNoDefaults s)) s))
    testCases = true.
Proof. vm_compute. reflexivity. Qed.

Example test_IsValidPart :
  forallb (fun '(kind, s, want) => Bool.eqb (isValidPart kind s) want)
    partCases = true.
Proof. vm_compute. reflexivity. Qed.

(** [TestParseDigest]: the call returns, with the expected validity. *)
Example test_ParseDigest :
  forallb
    (fun '(s, want) =>
       match ParseDigest s with
       | Ok d => Bool.eqb (Digest.IsValid d) want
       | Panic => false
       end)
    digestCases = true.
Proof. vm_compute. reflexivity. Qed.

(** [TestDigestString]. *)
Example test_DigestString :
  match ParseDigest ("sha256:" ++ validSHA256Hex) with
  | Ok d => Digest.String d = "sha256-" ++ validSHA256Hex
  | Panic => False
  end
  /\ match ParseDigest
             "blah-100000000000000000000000000000000000000000000000000000000000000"
     with
     | Ok d => Digest.String d = "unknown-" ++ zeros64
     | Panic => False
     end.
Proof. split; vm_compute; reflexivity. Qed.

Example parse_full :
  ParseNameNoDefaults "host/namespace/model:tag"
  = {| host := "host"; namespace := "namespace"; model := "model";
       tag := "tag"; rawDigest := "" |}.
Proof. reflexivity. Qed.

Example parse_digest_only :
  ParseNameNoDefaults "@digest"
  = {| host := ""; namespace := ""; model := ""; tag := "";
       rawDigest := "digest" |}.
Proof. reflexivity. Qed.

Example parse_default :
  Name.String (ParseName "xx") = "registry.ollama.ai/library/xx:latest".
Proof. vm_compute. reflexivity. Qed.

(** ** Strings: equality, emptiness, [cmp.Or] *)

Lemma streq_refl (a : gostring) : streq a a = true.
Proof.
  induction a as [|x a IH]; simpl; [reflexivity|].
  now rewrite Ascii.eqb_refl.
Qed.

Lemma streq_eq (a b : gostring) : streq a b = true <-> a = b.
Proof.
  split; [|intros ->; apply streq_refl].
  revert b; induction a as [|x a IH]; intros [|y b]; simpl; try discriminate.
  - reflexivity.
  - intros H. apply andb_true_iff in H as [Hx Hab].
    apply Ascii.eqb_eq in Hx. now rewrite Hx, (IH b Hab).
Qed.

Lemma streq_neq (a b : gostring) : streq a b = false <-> a <> b.
Proof.
  rewrite <- streq_eq. destruct (streq a b); split; congruence.
Qed.

Lemma streq_empty (a : gostring) : streq a "" = true <-> a = [].
Proof. apply streq_eq. Qed.

Lemma Or_nonempty (a b : gostring) : a <> [] -> cmp.Or a b = a.
Proof. destruct a; [congruence|reflexivity]. Qed.

Lemma Or_empty (b : gostring) : cmp.Or [] b = b.
Proof. reflexivity. Qed.

(** ** [strings.LastIndex] meets its documentation *)

Lemma LastIndex_range (s sub : gostring) :
  -1 <= strings.LastIndex s sub <= len s.
Proof.
  induction s as [|x s IH]; cbn [strings.LastIndex].
  - destruct (strings.HasPrefix [] sub); unfold len; simpl; lia.
  - destruct (Z.leb_spec 0 (strings.LastIndex s sub)).
    + unfold len in *. cbn [List.length]. lia.
    + destruct (strings.HasPrefix (x :: s) sub); unfold len;
        cbn [List.length]; lia.
Qed.

Lemma slice_from_cons (x : ascii) (s : gostring) (j : Z) :
  0 < j -> slice_from (x :: s) j = slice_from s (j - 1).
Proof.
  intros Hj. unfold slice_from.
  replace (Z.to_nat j) with (S (Z.to_nat (j - 1))) by lia. reflexivity.
Qed.

(** An occurrence of [sub] starts at the index that is returned. *)
Lemma LastIndex_found (s sub : gostring) :
  0 <= strings.LastIndex s sub ->
  strings.HasPrefix (slice_from s (strings.LastIndex s sub)) sub = true.
Proof.
  induction s as [|x s IH]; cbn [strings.LastIndex].
  - destruct (strings.HasPrefix [] sub) eqn:E; [intros _; exact E|lia].
  - destruct (Z.leb_spec 0 (strings.LastIndex s sub)) as [Hr|Hr].
    + intros _. rewrite slice_from_cons by lia.
      replace (1 + strings.LastIndex s sub - 1)
        with (strings.LastIndex s sub) by lia.
      now apply IH.
    + destruct (strings.HasPrefix (x :: s) sub) eqn:E; [intros _; exact E|lia].
Qed.

(** No occurrence of [sub] starts after the index that is returned, and
    none at all when [-1] is returned. *)
Lemma LastIndex_last (s sub : gostring) (j : Z) :
  strings.LastIndex s sub < j <= len s ->
  strings.HasPrefix (slice_from s j) sub = false.
Proof.
  revert j. induction s as [|x s IH]; intros j; cbn [strings.LastIndex].
  - unfold len. cbn [List.length].
    destruct (strings.HasPrefix [] sub) eqn:E; intros Hj; [lia|].
    replace j with 0 by lia. exact E.
  - pose proof (LastIndex_range s sub) as Hrange.
    assert (Hlen : len (x :: s) = len s + 1)
      by (unfold len; cbn [List.length]; lia).
    rewrite Hlen.
    destruct (Z.leb_spec 0 (strings.LastIndex s sub)) as [Hr|Hr].
    + intros Hj. rewrite slice_from_cons by lia. apply IH. lia.
    + destruct (strings.HasPrefix (x :: s) sub) eqn:E; intros Hj.
      * rewrite slice_from_cons by lia. apply IH. lia.
      * destruct (Z.eq_dec j 0) as [->|Hj0]; [exact E|].
        rewrite slice_from_cons by lia. apply IH. lia.
Qed.

(** ** [strings.LastIndex] and [cutLast] on a one-byte separator *)

Lemma LastIndex_absent (c : ascii) (s : gostring) :
  ~ In c s -> strings.LastIndex s [c] = -1.
Proof.
  induction s as [|x s IH]; simpl; intros Hn; [reflexivity|].
  rewrite IH by tauto. simpl.
  destruct (Ascii.eqb_spec x c) as [->|_]; [tauto|reflexivity].
Qed.

Lemma LastIndex_present (c : ascii) (a b : gostring) :
  ~ In c b -> strings.LastIndex (a ++ c :: b) [c] = len a.
Proof.
  intros Hb. induction a as [|x a IH].
  - simpl. rewrite LastIndex_absent by assumption. simpl.
    rewrite Ascii.eqb_refl. reflexivity.
  - change ((x :: a) ++ c :: b) with (x :: (a ++ c :: b)).
    cbn [strings.LastIndex]. rewrite IH.
    assert (0 <= len a) by apply Nat2Z.is_nonneg.
    destruct (Z.leb_spec 0 (len a)); [|lia].
    unfold len. cbn [List.length]. lia.
Qed.

(** Every string either lacks [c] or splits at its last occurrence. *)
Lemma split_last (c : ascii) (s : gostring) :
  ~ In c s \/ exists a b, s = a ++ c :: b /\ ~ In c b.
Proof.
  induction s as [|x s [IH | (a & b & -> & Hb)]].
  - left. intros [].
  - destruct (ascii_dec x c) as [->|Hx].
    + right. exists [], s. split; [reflexivity|assumption].
    + left. simpl. tauto.
  - right. exists (x :: a), b. split; [reflexivity|assumption].
Qed.

Lemma cutLast_present (c : ascii) (a b : gostring) :
  ~ In c b -> cutLast (a ++ c :: b) [c] = (a, b, true).
Proof.
  intros Hb. unfold cutLast. rewrite LastIndex_present by assumption.
  assert (0 <= len a) by apply Nat2Z.is_nonneg.
  destruct (Z.leb_spec 0 (len a)); [|lia].
  unfold slice_to, slice_from, len. cbn [List.length].
  rewrite Nat2Z.id.
  replace (Z.to_nat (Z.of_nat (List.length a) + Z.of_nat 1))
    with (List.length a + 1)%nat by lia.
  rewrite firstn_app, Nat.sub_diag, firstn_all. simpl. rewrite app_nil_r.
  rewrite skipn_app.
  replace (List.length a + 1 - List.length a)%nat with 1%nat by lia.
  rewrite skipn_all2 by lia. reflexivity.
Qed.

Lemma cutLast_absent (c : ascii) (s : gostring) :
  ~ In c s -> cutLast s [c] = (s, [], false).
Proof.
  intros Hn. unfold cutLast. now rewrite LastIndex_absent.
Qed.

Lemma cutLastP (c : ascii) (s : gostring) : cut_spec c s (cutLast s [c]).
Proof.
  destruct (split_last c s) as [Hn | (a & b & Hs & Hb)].
  - rewrite cutLast_absent by assumption. now constructor.
  - rewrite Hs at 2. rewrite cutLast_present by assumption.
    now apply cut_present.
Qed.

(** ** The part validator *)

Lemma partChar_ascii (kind : partKind) (c : ascii) :
  partChar kind c = true -> (byte_val c <? 128) = true.
Proof.
  unfold partChar.
  destruct (kind =? kindNamespace), (kind =? kindHost);
    destruct c as [[] [] [] [] [] [] [] []]; vm_compute; congruence.
Qed.

Lemma runeWidth_ascii (c : ascii) (s : gostring) :
  (byte_val c <? 128) = true -> runtime.runeWidth (c :: s) = 1%nat.
Proof. intros H. unfold runtime.runeWidth. now rewrite H. Qed.

Lemma isValidPart_loop_cons (kind : partKind) (i : Z) (c : ascii)
      (iters : list (Z * ascii)) :
  isValidPart_loop kind ((i, c) :: iters) = true ->
  partChar kind c = true /\ isValidPart_loop kind iters = true.
Proof.
  cbn [isValidPart_loop]. unfold partChar.
  destruct (i =? 0), (isAlphanumeric c), (Ascii.eqb c "_"), (Ascii.eqb c "-"),
    (Ascii.eqb c "."), (Ascii.eqb c ":"), (kind =? kindNamespace),
    (kind =? kindHost); simpl; intros H; split;
    solve [reflexivity | assumption | discriminate].
Qed.

(** A string that passes the loop is made of single-byte code points, so
    the loop has read every byte of it. *)
Lemma isValidPart_loop_chars (kind : partKind) (i : Z) (s : gostring) :
  isValidPart_loop kind (runtime.range_from i 0 s) = true ->
  Forall (fun c => partChar kind c = true) s.
Proof.
  revert i. induction s as [|c s IH]; intros i H; [constructor|].
  cbn [runtime.range_from] in H.
  apply isValidPart_loop_cons in H as [Hc H].
  rewrite (runeWidth_ascii c s (partChar_ascii kind c Hc)) in H.
  constructor; [exact Hc | exact (IH (i + 1) H)].
Qed.

Lemma isValidPart_inv (kind : partKind) (s : gostring) :
  isValidPart kind s = true ->
  isValidLen kind s = true
  /\ isValidPart_loop kind (runtime.range s) = true.
Proof.
  unfold isValidPart. destruct (isValidLen kind s); simpl; [tauto|discriminate].
Qed.

Lemma isValidPart_chars (kind : partKind) (s : gostring) :
  isValidPart kind s = true -> Forall (fun c => partChar kind c = true) s.
Proof.
  intros H. apply isValidPart_inv in H as [_ H].
  exact (isValidPart_loop_chars kind 0 s H).
Qed.

Lemma isValidLen_bounds (kind : partKind) (s : gostring) :
  isValidLen kind s = true -> 1 <= len s <= 350.
Proof.
  unfold isValidLen.
  destruct (kind =? kindHost); [|destruct (kind =? kindTag)];
    intros H; apply andb_true_iff in H as [H1 H2];
    apply Z.leb_le in H1, H2; lia.
Qed.

Lemma isValidPart_nonempty (kind : partKind) (s : gostring) :
  isValidPart kind s = true -> s <> [].
Proof.
  intros H. apply isValidPart_inv in H as [H _].
  apply isValidLen_bounds in H. intros ->. unfold len in H. simpl in H. lia.
Qed.

Lemma isValidPart_first (kind : partKind) (c : ascii) (s : gostring) :
  isValidPart kind (c :: s) = true -> isAlphanumeric c = true.
Proof.
  intros H. apply isValidPart_inv in H as [_ H].
  cbn [runtime.range runtime.range_from isValidPart_loop Z.eqb] in H.
  destruct (isAlphanumeric c); [reflexivity|discriminate].
Qed.

Lemma partChar_not_sep (kind : partKind) (c : ascii) :
  partChar kind c = true -> c <> "/"%char /\ c <> "@"%char.
Proof.
  intros H. split; intros ->; cbv in H; discriminate.
Qed.

Lemma partChar_not_colon (kind : partKind) (c : ascii) :
  kind <> kindHost -> partChar kind c = true -> c <> ":"%char.
Proof.
  intros Hk H ->. unfold partChar in H.
  apply Z.eqb_neq in Hk. rewrite Hk in H.
  destruct (kind =? kindNamespace); cbv in H; discriminate.
Qed.

Lemma isValidPart_no_slash (kind : partKind) (s : gostring) :
  isValidPart kind s = true -> ~ In "/"%char s.
Proof.
  intros H Hin. apply isValidPart_chars in H.
  rewrite Forall_forall in H. now apply H, partChar_not_sep in Hin.
Qed.

Lemma isValidPart_no_at (kind : partKind) (s : gostring) :
  isValidPart kind s = true -> ~ In "@"%char s.
Proof.
  intros H Hin. apply isValidPart_chars in H.
  rewrite Forall_forall in H. now apply H, partChar_not_sep in Hin.
Qed.

Lemma isValidPart_no_colon (kind : partKind) (s : gostring) :
  kind <> kindHost -> isValidPart kind s = true -> ~ In ":"%char s.
Proof.
  intros Hk H Hin. apply isValidPart_chars in H.
  rewrite Forall_forall in H.
  now apply H, (partChar_not_colon kind _ Hk) in Hin.
Qed.

Lemma isValidPart_Missing (kind : partKind) :
  isValidPart kind MissingPart = false.
Proof.
  unfold isValidPart. destruct (isValidLen kind MissingPart); reflexivity.
Qed.

(** ** [Name.IsValid] unfolded *)

Lemma okPart_check (kind : partKind) (p : gostring) :
  negb (streq p "") && negb (isValidPart kind p) = false <-> okPart kind p.
Proof.
  unfold okPart. destruct p as [|c p]; simpl.
  - tauto.
  - destruct (isValidPart kind (c :: p)); simpl.
    + split; [intros _; now right | reflexivity].
    + split; [discriminate | intros [H|H]; discriminate].
Qed.

Lemma IsValid_true (n : Name) :
  Name.IsValid n = true <->
  (model n <> [] \/ rawDigest n <> [])
  /\ okPart kindHost (host n) /\ okPart kindNamespace (namespace n)
  /\ okPart kindModel (model n) /\ okPart kindTag (tag n)
  /\ okPart kindDigest (rawDigest n).
Proof.
  destruct n as [h ns m t d]. unfold Name.IsValid, Name.parts.
  cbn [host namespace model tag rawDigest Name.IsValid_loop].
  rewrite <- !okPart_check. change (0 + 1) with 1. change (1 + 1) with 2.
  change (2 + 1) with 3. change (3 + 1) with 4.
  assert (E : streq m "" && streq d "" = false <-> (m <> [] \/ d <> [])).
  { destruct m, d; simpl; split; try tauto; try congruence;
      intros _; ((left; congruence) || (right; congruence)). }
  rewrite <- E.
  destruct (streq m "" && streq d "").
  - split; [discriminate|]. intros [H _]. discriminate.
  - unfold kindHost, kindNamespace, kindModel, kindTag, kindDigest.
    destruct (negb (streq h "") && negb (isValidPart 0 h)),
      (negb (streq ns "") && negb (isValidPart 1 ns)),
      (negb (streq m "") && negb (isValidPart 2 m)),
      (negb (streq t "") && negb (isValidPart 3 t)),
      (negb (streq d "") && negb (isValidPart 4 d));
      split; intros H; try discriminate; try tauto;
      repeat split; try reflexivity;
      decompose [and] H; discriminate.
Qed.

Lemma okPart_Missing (kind : partKind) : ~ okPart kind MissingPart.
Proof.
  intros [H|H]; [discriminate|]. rewrite isValidPart_Missing in H. discriminate.
Qed.

(** ** Parsing, then formatting *)

Lemma okPart_Or (kind : partKind) (x : gostring) :
  okPart kind (cmp.Or x MissingPart) -> x <> [] /\ isValidPart kind x = true.
Proof.
  destruct x as [|c x]; [intros H; now apply okPart_Missing in H|].
  cbn. intros [H|H]; [discriminate|]. split; [discriminate|exact H].
Qed.

Lemma Missing_no_slash : ~ In "/"%char MissingPart.
Proof. cbv. intuition discriminate. Qed.

Lemma withSlash_nonempty (p : gostring) : p <> [] -> withSlash p = p ++ ["/"%char].
Proof. destruct p; [congruence|reflexivity]. Qed.

Lemma withLead_nonempty (c : ascii) (p : gostring) : p <> [] -> withLead c p = c :: p.
Proof. destruct p; [congruence|reflexivity]. Qed.

Lemma String_valid (n : Name) :
  Name.IsValid n = true ->
  Name.String n
  = withSlash (host n) ++ withSlash (namespace n) ++ model n
    ++ withLead ":" (tag n) ++ withLead "@" (rawDigest n).
Proof.
  intros H. unfold Name.String. rewrite H.
  destruct n as [[|? ?] [|? ?] m [|? ?] [|? ?]]; simpl;
    rewrite <- ?app_assoc, ?app_nil_r; reflexivity.
Qed.

Ltac fields := cbn [host namespace model tag rawDigest] in *.

Lemma promised_digest (d : gostring) :
  (if true && streq d "" then MissingPart else d) = cmp.Or d MissingPart.
Proof. destruct d; reflexivity. Qed.

(** Use the validity of each field of a parsed name. *)
Ltac parts_ok :=
  repeat match goal with
  | H : _ /\ _ |- _ => destruct H
  | H : okPart _ MissingPart |- _ => now apply okPart_Missing in H
  | H : okPart _ (cmp.Or _ MissingPart) |- _ => apply okPart_Or in H
  end.

Lemma Or_Missing_inv (x : gostring) :
  cmp.Or x MissingPart <> MissingPart -> cmp.Or x MissingPart = x /\ x <> [].
Proof.
  destruct x as [|c x]; [intros H; now elim H|].
  intros _. split; [reflexivity|discriminate].
Qed.

Lemma ParseNameNoDefaults_path (s : gostring) :
  ParseNameNoDefaults s
  = let '(s, rawDigest0, promised) := cutLast s "@" in
    let rawDigest0 :=
      if promised && streq rawDigest0 "" then MissingPart else rawDigest0 in
    let '(s, tag0, _) := cutPromised s ":" in
    parsePath s tag0 rawDigest0.
Proof.
  unfold ParseNameNoDefaults, parsePath.
  destruct (cutLast s "@") as [[s1 d] promised].
  destruct (cutPromised s1 ":") as [[s2 t] ?]. reflexivity.
Qed.

Lemma parsePath_tag (p t d : gostring) :
  tag (parsePath p t d) = t /\ rawDigest (parsePath p t d) = d.
Proof.
  unfold parsePath.
  destruct (cutPromised p "/") as [[s m] [|]]; cbn [negb]; [|now split].
  destruct (cutPromised s "/") as [[s' ns] [|]]; now split.
Qed.

(** On a valid result, the three fields read from [p] spell [p] again. *)
Lemma parsePath_valid (p t d : gostring) :
  Name.IsValid (parsePath p t d) = true ->
  withSlash (host (parsePath p t d))
    ++ withSlash (namespace (parsePath p t d)) ++ model (parsePath p t d) = p
  /\ p <> MissingPart.
Proof.
  intros Hv. apply IsValid_true in Hv. revert Hv.
  unfold parsePath, cutPromised. cbn [list_ascii_of_string].
  destruct (cutLastP "/"%char p) as [Hp | p1 m -> Hm]; cbn [negb].
  - fields. intros Hv. split; [reflexivity|].
    intros ->. parts_ok.
  - assert (Hne : forall x, x ++ "/"%char :: m <> MissingPart).
    { intros x E. apply Missing_no_slash. rewrite <- E.
      apply in_or_app. right. now left. }
    destruct (list_eq_dec ascii_dec p1 []) as [->|Hp1].
    + rewrite Or_empty, (cutLast_absent _ _ Missing_no_slash). cbn [negb].
      fields. intros Hv. parts_ok.
    + rewrite (Or_nonempty p1) by assumption.
      destruct (cutLastP "/"%char p1) as [Hp1' | p2 ns -> Hns]; cbn [negb];
        fields; intros Hv; parts_ok; (split; [|apply Hne]).
      * rewrite Or_nonempty, (withSlash_nonempty p1) by assumption.
        cbn [withSlash app]. now rewrite <- app_assoc.
      * rewrite !Or_nonempty, !withSlash_nonempty by assumption.
        rewrite <- !app_assoc. reflexivity.
Qed.

Lemma String_Parse (s : gostring) :
  Name.IsValid (ParseNameNoDefaults s) = true ->
  Name.String (ParseNameNoDefaults s) = s.
Proof.
  intros Hv. rewrite (String_valid _ Hv). revert Hv.
  rewrite ParseNameNoDefaults_path. unfold cutPromised.
  cbn [list_ascii_of_string].
  destruct (cutLastP "@"%char s) as [Hat | s1 d -> Hd];
    [cbn [andb] | rewrite promised_digest];
    match goal with
    | |- context [cutLast ?x [":"%char]] =>
        destruct (cutLastP ":"%char x) as [Hc | s2 t -> Ht]
    end; cbn [negb]; intros Hv;
    destruct (parsePath_valid _ _ _ Hv) as [Hp Hm];
    match type of Hv with
    | Name.IsValid (parsePath ?p ?t ?d) = true =>
        destruct (parsePath_tag p t d) as [Ht' Hd'];
        apply IsValid_true in Hv; rewrite Ht', Hd' in *
    end;
    rewrite !app_assoc; rewrite <- (app_assoc (withSlash _)), Hp;
    try (apply Or_Missing_inv in Hm as [-> _]);
    parts_ok;
    rewrite ?Or_nonempty by assumption; cbn [withLead app];
    rewrite ?withLead_nonempty by assumption;
    rewrite <- ?app_assoc, ?app_nil_r; reflexivity.
Qed.

(** ** Formatting, then parsing *)

Lemma okPart_no_slash (kind : partKind) (p : gostring) :
  okPart kind p -> ~ In "/"%char p.
Proof. intros [->|H]; [intros []|now apply isValidPart_no_slash in H]. Qed.

Lemma okPart_no_at (kind : partKind) (p : gostring) :
  okPart kind p -> ~ In "@"%char p.
Proof. intros [->|H]; [intros []|now apply isValidPart_no_at in H]. Qed.

Lemma okPart_no_colon (kind : partKind) (p : gostring) :
  kind <> kindHost -> okPart kind p -> ~ In ":"%char p.
Proof.
  intros Hk [->|H]; [intros []|now apply isValidPart_no_colon in H].
Qed.

Lemma in_withSlash (c : ascii) (p : gostring) :
  In c (withSlash p) -> In c p \/ c = "/"%char.
Proof.
  destruct p as [|x p]; [intros []|]. unfold withSlash. intros H.
  apply in_app_or in H as [H|[<-|[]]]; auto.
Qed.

Lemma in_withLead (c x : ascii) (p : gostring) :
  In c (withLead x p) -> In c p \/ c = x.
Proof.
  destruct p as [|y p]; [intros []|]. unfold withLead.
  intros [<-|H]; auto.
Qed.

(** The cuts at ['/'] read back what the formatter wrote. *)
Lemma parsePath_format (h ns m t d : gostring) :
  okPart kindHost h -> okPart kindNamespace ns -> okPart kindModel m ->
  (h <> [] -> ns <> []) -> (m = [] -> h = [] /\ ns = []) ->
  parsePath (withSlash h ++ withSlash ns ++ m) t d
  = {| host := h; namespace := ns; model := m; tag := t; rawDigest := d |}.
Proof.
  intros Hh Hns Hm S1 S2.
  apply okPart_no_slash in Hh, Hns, Hm.
  unfold parsePath, cutPromised. cbn [list_ascii_of_string].
  destruct (list_eq_dec ascii_dec ns []) as [->|Nns].
  - destruct h as [|x h]; [|now elim S1]. cbn [withSlash app].
    now rewrite cutLast_absent.
  - assert (Nm : m <> []) by (intros E; now apply S2 in E).
    rewrite (withSlash_nonempty ns Nns).
    destruct (list_eq_dec ascii_dec h []) as [->|Nh].
    + cbn [withSlash app]. rewrite <- app_assoc. cbn [app].
      rewrite cutLast_present by assumption. cbn [negb].
      rewrite !Or_nonempty by assumption.
      now rewrite cutLast_absent.
    + rewrite (withSlash_nonempty h Nh).
      replace ((h ++ ["/"%char]) ++ (ns ++ ["/"%char]) ++ m)
        with ((h ++ "/"%char :: ns) ++ "/"%char :: m)
        by (now rewrite <- !app_assoc).
      rewrite cutLast_present by assumption. cbn [negb].
      rewrite (Or_nonempty (h ++ _))
        by (intros E; apply app_eq_nil in E as [_ E]; discriminate).
      rewrite cutLast_present by assumption. cbn [negb].
      now rewrite !Or_nonempty by assumption.
Qed.

Lemma parse_string_canonical (n : Name) :
  Name.IsValid n = true -> canonical n ->
  ParseNameNoDefaults (Name.String n) = n.
Proof.
  intros Hv (S1 & S2 & S3). rewrite (String_valid n Hv).
  apply IsValid_true in Hv. destruct Hv as (Hne & Hh & Hns & Hm & Ht & Hd).
  destruct n as [h ns m t d]. fields.
  rewrite ParseNameNoDefaults_path. cbn [list_ascii_of_string].
  set (P := withSlash h ++ withSlash ns ++ m).
  assert (HP : forall c, In c P ->
                 In c h \/ In c ns \/ In c m \/ c = "/"%char).
  { intros c Hin. unfold P in Hin.
    apply in_app_or in Hin as [Hin|Hin];
      [apply in_withSlash in Hin; tauto|].
    apply in_app_or in Hin as [Hin|Hin];
      [apply in_withSlash in Hin; tauto|tauto]. }
  assert (HPat : ~ In "@"%char P).
  { intros Hin. apply HP in Hin as [Hin|[Hin|[Hin|Hin]]];
      [now apply (okPart_no_at _ _ Hh) | now apply (okPart_no_at _ _ Hns)
      | now apply (okPart_no_at _ _ Hm) | discriminate]. }
  assert (HX : ~ In "@"%char (P ++ withLead ":" t)).
  { intros Hin. apply in_app_or in Hin as [Hin|Hin]; [now apply HPat|].
    apply in_withLead in Hin as [Hin|Hin];
      [now apply (okPart_no_at _ _ Ht)|discriminate]. }
  replace (withSlash h ++ withSlash ns ++ m ++ withLead ":" t ++ withLead "@" d)
    with ((P ++ withLead ":" t) ++ withLead "@" d)
    by (unfold P; now rewrite <- !app_assoc).
  assert (Hcut : cutLast ((P ++ withLead ":" t) ++ withLead "@" d) ["@"%char]
                 = (P ++ withLead ":" t, d, negb (streq d []))).
  { destruct d as [|x d].
    - cbn [withLead streq negb]. rewrite app_nil_r. now apply cutLast_absent.
    - cbn [withLead streq negb]. apply cutLast_present.
      now apply (okPart_no_at _ _ Hd). }
  rewrite Hcut. cbv beta iota zeta.
  assert (Hd0 : (if negb (streq d []) && streq d [] then MissingPart else d) = d)
    by (now destruct d).
  rewrite Hd0. unfold cutPromised.
  assert (Hpath : parsePath P t d
                  = {| host := h; namespace := ns; model := m; tag := t;
                       rawDigest := d |}).
  { apply parsePath_format; try assumption. intros E. now apply S2 in E. }
  destruct (list_eq_dec ascii_dec t []) as [->|Nt].
  - cbn [withLead]. rewrite app_nil_r.
    rewrite cutLast_absent; [exact Hpath|].
    intros Hin. apply HP in Hin as [Hin|[Hin|[Hin|Hin]]].
    + now apply S3.
    + apply (okPart_no_colon _ _) in Hns; [now apply Hns|discriminate].
    + apply (okPart_no_colon _ _) in Hm; [now apply Hm|discriminate].
    + discriminate.
  - rewrite (withLead_nonempty _ t Nt).
    rewrite cutLast_present
      by (apply (okPart_no_colon _ _) in Ht; [assumption|discriminate]).
    cbn [negb].
    assert (NP : P <> []).
    { intros E. apply Nt. apply S2.
      unfold P in E. apply app_eq_nil in E as [_ E].
      now apply app_eq_nil in E as [_ E]. }
    now rewrite !Or_nonempty by assumption.
Qed.

Lemma withSlash_in (c : ascii) (p : gostring) :
  In c p -> In c (withSlash p).
Proof.
  destruct p as [|x p]; [intros []|]. intros H. unfold withSlash.
  apply in_or_app. now left.
Qed.

Lemma parsePath_shape (p t d : gostring) :
  Name.IsValid (parsePath p t d) = true ->
  (host (parsePath p t d) <> [] -> namespace (parsePath p t d) <> [])
  /\ (model (parsePath p t d) = [] ->
      host (parsePath p t d) = [] /\ namespace (parsePath p t d) = []
      /\ p = []).
Proof.
  intros Hv. apply IsValid_true in Hv. revert Hv.
  unfold parsePath, cutPromised. cbn [list_ascii_of_string].
  destruct (cutLastP "/"%char p) as [Hp | p1 m -> Hm]; cbn [negb].
  - fields. intros _. split; [intros H; now elim H|]. intros ->. now repeat split.
  - destruct (list_eq_dec ascii_dec p1 []) as [->|Hp1].
    + rewrite Or_empty, (cutLast_absent _ _ Missing_no_slash). cbn [negb].
      fields. intros Hv. parts_ok.
    + rewrite (Or_nonempty p1) by assumption.
      destruct (cutLastP "/"%char p1) as [Hp1' | p2 ns -> Hns]; cbn [negb];
        fields; intros Hv; parts_ok;
        rewrite ?Or_nonempty by assumption;
        (split; [intros _; assumption | intros E; contradiction]).
Qed.

Lemma parse_canonical (s : gostring) :
  Name.IsValid (ParseNameNoDefaults s) = true ->
  canonical (ParseNameNoDefaults s).
Proof.
  rewrite ParseNameNoDefaults_path. unfold cutPromised, canonical.
  cbn [list_ascii_of_string].
  destruct (cutLastP "@"%char s) as [Hat | s1 d -> Hd];
    [cbn [andb] | rewrite promised_digest];
    match goal with
    | |- context [cutLast ?x [":"%char]] =>
        destruct (cutLastP ":"%char x) as [Hc | s2 t -> Ht]
    end; cbn [negb]; intros Hv;
    destruct (parsePath_valid _ _ _ Hv) as [Hp Hm];
    destruct (parsePath_shape _ _ _ Hv) as [S1 S2];
    match type of Hv with
    | Name.IsValid (parsePath ?p ?t ?d) = true =>
        destruct (parsePath_tag p t d) as [Ht' Hd'];
        apply IsValid_true in Hv; rewrite Ht', Hd' in *
    end;
    try (apply Or_Missing_inv in Hm as [Hm Hne]; rewrite Hm in * );
    parts_ok;
    (split; [exact S1|]; split;
     [ intros E; destruct (S2 E) as (? & ? & ?); repeat split;
       solve [assumption | reflexivity | contradiction]
     | intros E Hin ]);
    first [ rewrite Or_nonempty in E by assumption; contradiction
          | apply Hc; rewrite <- Hp; apply in_or_app; left;
            now apply withSlash_in ].
Qed.

(** The valid names that the parser returns are the valid names of that
    shape. *)
Lemma parser_image (n : Name) :
  Name.IsValid n = true ->
  (exists s, ParseNameNoDefaults s = n) <-> canonical n.
Proof.
  intros Hv. split.
  - intros [s <-]. now apply parse_canonical.
  - intros Hc. exists (Name.String n). now apply parse_string_canonical.
Qed.

(** ** Round trips between [ParseNameNoDefaults] and [Name.String] *)

(** C1.  For every string [s] whose parse is a valid name, formatting
    the parsed name gives back [s] exactly. *)
Theorem C1_string_of_parse (s : gostring) :
  Name.IsValid (ParseNameNoDefaults s) = true ->
  Name.String (ParseNameNoDefaults s) = s.
Proof. exact (String_Parse s). Qed.

Lemma C1_string_of_parse_witness :
  Name.IsValid (ParseNameNoDefaults "host:https/namespace/model:tag@dd") = true
  /\ Name.String (ParseNameNoDefaults "host:https/namespace/model:tag@dd")
     = "host:https/namespace/model:tag@dd".
Proof.
  split; [reflexivity|].
  apply (C1_string_of_parse "host:https/namespace/model:tag@dd").
  reflexivity.
Defined.

(** C2, as stated, fails: the valid name with host ["hh"], model ["mm"]
    and no namespace is formatted as ["hh/mm"], which parses with ["hh"]
    as the namespace. *)
Lemma C2_counterexample :
  Name.IsValid hostOnly = true
  /\ ParseNameNoDefaults (Name.String hostOnly) <> hostOnly.
Proof. split; [reflexivity|]. vm_compute. discriminate. Qed.

(** C2, amended.  For every valid name [n] that the parser produces
    from some string, parsing the formatted name gives back [n], field
    for field. *)
Theorem C2_parse_of_string (n : Name) :
  Name.IsValid n = true ->
  (exists s, ParseNameNoDefaults s = n) ->
  ParseNameNoDefaults (Name.String n) = n.
Proof.
  intros Hv [s <-]. now rewrite (String_Parse s Hv).
Qed.

Lemma C2_parse_of_string_witness :
  Name.IsValid (ParseNameNoDefaults "namespace/model:tag") = true
  /\ ParseNameNoDefaults (Name.String (ParseNameNoDefaults "namespace/model:tag"))
     = ParseNameNoDefaults "namespace/model:tag".
Proof.
  split; [reflexivity|].
  apply (C2_parse_of_string (ParseNameNoDefaults "namespace/model:tag")).
  - reflexivity.
  - exists (list_ascii_of_string "namespace/model:tag"). reflexivity.
Defined.

(** ** [IsValidShort] *)

(** C4 fails on the code at an empty namespace: [IsValidShort "" "mm"]
    is false, while the name with only the model ["mm"] set is valid. *)
Theorem C4_IsValidShort_empty_namespace :
  IsValidShort "" "mm" = false
  /\ Name.IsValid {| host := ""; namespace := ""; model := "mm"; tag := "";
                     rawDigest := "" |} = true.
Proof. split; reflexivity. Qed.

(** With a namespace that is not empty the two agree. *)
Lemma IsValidShort_nonempty (ns m : gostring) :
  ns <> [] ->
  IsValidShort ns m
  = Name.IsValid {| host := ""; namespace := ns; model := m; tag := "";
                    rawDigest := "" |}.
Proof.
  intros Hns. unfold IsValidShort, Name.IsValid, Name.parts.
  cbn [host namespace model tag rawDigest Name.IsValid_loop streq negb andb].
  change (0 + 1) with kindNamespace. change (kindNamespace + 1) with kindModel.
  destruct ns as [|c ns]; [congruence|]. cbn [streq negb andb].
  destruct m as [|c' m].
  - cbn [streq andb]. now rewrite andb_false_r.
  - cbn [streq negb andb].
    destruct (isValidPart kindNamespace (c :: ns)),
      (isValidPart kindModel (c' :: m)); reflexivity.
Qed.

(** ** What a valid name cannot contain *)

(** C5, as stated, fails: the name parsed from ["a..b"] is valid and its
    model contains [".."]. *)
Lemma C5_counterexample :
  Name.IsValid (ParseNameNoDefaults "a..b") = true
  /\ model (ParseNameNoDefaults "a..b") = "a..b"
  /\ strings.Contains (model (ParseNameNoDefaults "a..b")) ".." = true.
Proof. repeat split. Qed.

(** C5, amended.  In a valid name no field is the two-byte string
    [".."], and no field is longer than 350 bytes. *)
Theorem C5_valid_fields (n : Name) (p : gostring) :
  Name.IsValid n = true ->
  In p (Name.parts n) ->
  p <> ".." /\ len p <= 350.
Proof.
  intros Hv Hin. apply IsValid_true in Hv.
  destruct Hv as (_ & Hh & Hns & Hm & Ht & Hd).
  assert (Hp : exists kind, okPart kind p).
  { unfold Name.parts in Hin. simpl in Hin.
    destruct Hin as [<-|[<-|[<-|[<-|[<-|[]]]]]]; eauto. }
  destruct Hp as [kind [->|Hp]].
  - split; [discriminate|]. unfold len. simpl. lia.
  - split.
    + intros ->. apply isValidPart_first in Hp. discriminate.
    + apply isValidPart_inv in Hp as [Hp _].
      now apply isValidLen_bounds in Hp.
Qed.

Lemma C5_valid_fields_witness :
  Name.IsValid (ParseNameNoDefaults "a..b") = true
  /\ (list_ascii_of_string "a..b" <> ".." /\ len (list_ascii_of_string "a..b") <= 350).
Proof.
  split; [reflexivity|].
  apply (C5_valid_fields (ParseNameNoDefaults "a..b") "a..b").
  - reflexivity.
  - vm_compute. tauto.
Defined.

(** ** The sentinel [MissingPart] *)

(** C7.  [MissingPart] is not a valid part of any kind, and a name with
    a field equal to [MissingPart] is not valid. *)
Theorem C7_MissingPart_invalid (kind : partKind) (n : Name) :
  isValidPart kind MissingPart = false
  /\ (In MissingPart (Name.parts n) -> Name.IsValid n = false).
Proof.
  split; [apply isValidPart_Missing|].
  intros Hin. destruct (Name.IsValid n) eqn:Hv; [exfalso|reflexivity].
  apply IsValid_true in Hv. destruct Hv as (_ & Hh & Hns & Hm & Ht & Hd).
  unfold Name.parts in Hin. simpl in Hin.
  destruct Hin as [E|[E|[E|[E|[E|[]]]]]]; rewrite E in *;
    eapply okPart_Missing; eassumption.
Qed.

Lemma C7_MissingPart_invalid_witness :
  In MissingPart (Name.parts (ParseNameNoDefaults "mm:"))
  /\ Name.IsValid (ParseNameNoDefaults "mm:") = false.
Proof.
  assert (Hin : In MissingPart (Name.parts (ParseNameNoDefaults "mm:"))).
  { vm_compute. tauto. }
  split; [exact Hin|].
  exact (proj2 (C7_MissingPart_invalid kindTag (ParseNameNoDefaults "mm:")) Hin).
Defined.

(** ** Formatting and validity *)

(** C8.  [Name.String] returns the empty string exactly on the names
    that are not valid. *)
Theorem C8_String_empty_iff_invalid (n : Name) :
  Name.String n = "" <-> Name.IsValid n = false.
Proof.
  split.
  - intros Hs. destruct (Name.IsValid n) eqn:Hv; [exfalso|reflexivity].
    rewrite (String_valid n Hv) in Hs.
    apply IsValid_true in Hv. destruct Hv as [Hne _].
    repeat (apply app_eq_nil in Hs; destruct Hs as [? Hs]).
    destruct Hne as [Hne|Hne]; [contradiction|].
    destruct (rawDigest n); [now apply Hne|discriminate].
  - intros Hv. unfold Name.String. now rewrite Hv.
Qed.

(** ** Hexadecimal digits and [hex.Decode] *)

Lemma reverseHexTable_digit (c : ascii) :
  isHexDigit c = true -> (15 <? hex.reverseHexTable c) = false.
Proof.
  destruct c as [[] [] [] [] [] [] [] []]; vm_compute; congruence.
Qed.

Lemma reverseHexTable_other (c : ascii) :
  isHexDigit c = false -> (15 <? hex.reverseHexTable c) = true.
Proof.
  destruct c as [[] [] [] [] [] [] [] []]; vm_compute; congruence.
Qed.

Lemma reverseHexTable_zero (c : ascii) :
  hex.reverseHexTable c = 0 -> c = "0"%char.
Proof.
  destruct c as [[] [] [] [] [] [] [] []]; vm_compute; congruence.
Qed.

Lemma reverseHexTable_nonneg (c : ascii) : 0 <= hex.reverseHexTable c.
Proof.
  destruct c as [[] [] [] [] [] [] [] []]; vm_compute; congruence.
Qed.

Lemma isHexDigit_not_sep (c : ascii) :
  isHexDigit c = true -> c <> ":"%char /\ c <> "@"%char /\ c <> "-"%char.
Proof.
  intros H. repeat split; intros ->; vm_compute in H; discriminate.
Qed.

Lemma store_at (done todo : list Z) (x v : Z) :
  hex.store (done ++ x :: todo) (List.length done) v = done ++ v :: todo.
Proof.
  induction done as [|y done IH]; simpl; [reflexivity|]. now rewrite IH.
Qed.

(** Decoding [2k] hexadecimal digits into a buffer with room for [k] more
    bytes writes those [k] bytes and reports no error. *)
Lemma Decode_loop_digits (k : nat) :
  forall (h : gostring) (done todo : list Z),
    List.length h = (2 * k)%nat ->
    Forall (fun c => isHexDigit c = true) h ->
    (k <= List.length todo)%nat ->
    hex.Decode_loop (done ++ todo) (len done) h
    = Ok (done ++ hexBytes h ++ skipn k todo, len done + Z.of_nat k, None).
Proof.
  induction k as [|k IH]; intros h done todo Hlen Hhex Hroom.
  - destruct h; [|discriminate]. simpl. now rewrite Z.add_0_r.
  - destruct h as [|p [|q h]]; try (exfalso; simpl in Hlen; lia).
    destruct todo as [|x todo]; [exfalso; simpl in Hroom; lia|].
    pose proof (Forall_inv Hhex) as Hp.
    pose proof (Forall_inv (Forall_inv_tail Hhex)) as Hq.
    pose proof (Forall_inv_tail (Forall_inv_tail Hhex)) as Hhex'.
    cbv beta in Hp, Hq.
    cbn [hex.Decode_loop hexBytes].
    rewrite (reverseHexTable_digit p Hp), (reverseHexTable_digit q Hq).
    assert (Hlt : (len done <? len (done ++ x :: todo)) = true).
    { apply Z.ltb_lt. unfold len. rewrite length_app. simpl. lia. }
    rewrite Hlt. unfold len at 1. rewrite Nat2Z.id, store_at.
    set (v := Z.lor _ _).
    replace (len done + 1) with (len (done ++ [v]))
      by (unfold len; rewrite length_app; simpl; lia).
    change (done ++ v :: todo) with (done ++ [v] ++ todo).
    rewrite app_assoc, IH; [|simpl in Hlen; lia|assumption|simpl in Hroom; lia].
    rewrite <- app_assoc. cbn [app skipn].
    do 3 f_equal. unfold len. rewrite length_app. simpl. lia.
Qed.

Lemma Decode_digits (h : gostring) :
  List.length h = 64%nat ->
  Forall (fun c => isHexDigit c = true) h ->
  hex.Decode (Hash Digest.zero) h = Ok (hexBytes h, 32, None).
Proof.
  intros Hlen Hhex. unfold hex.Decode.
  change (Hash Digest.zero) with ([] ++ repeat 0 32).
  change 0 with (len (@nil Z)) at 2.
  rewrite (Decode_loop_digits 32) by (assumption || (simpl; lia)).
  cbn [skipn repeat app]. now rewrite app_nil_r.
Qed.

(** Only the digits ['0'] decode to the all-zero array. *)
Lemma hexBytes_zero (k : nat) :
  forall h : gostring,
    List.length h = (2 * k)%nat ->
    hexBytes h = repeat 0 k ->
    h = repeat "0"%char (2 * k).
Proof.
  induction k as [|k IH]; intros h Hlen Hz.
  - now destruct h.
  - destruct h as [|p [|q h]]; try (exfalso; simpl in Hlen; lia).
    cbn [hexBytes repeat] in Hz.
    pose proof (f_equal (hd 0) Hz) as Hv. apply (f_equal (@tl Z)) in Hz.
    cbn [hd tl] in Hv, Hz.
    apply Z.lor_eq_0_iff in Hv as [Hp Hq].
    apply Z.shiftl_eq_0_iff in Hp; [|lia].
    apply reverseHexTable_zero in Hp, Hq. subst p q.
    replace (2 * S k)%nat with (S (S (2 * k))) by lia. cbn [repeat].
    do 2 f_equal. apply IH; [simpl in Hlen; lia|assumption].
Qed.

(** When the loop of [hex.Decode] ends without an error, the source was
    an even number of hexadecimal digits that fitted in the buffer. *)
Lemma Decode_loop_ok (m : nat) :
  forall (src : gostring) (done todo dst' : list Z) (n : Z),
    (List.length src <= m)%nat ->
    hex.Decode_loop (done ++ todo) (len done) src = Ok (dst', n, None) ->
    Forall (fun c => isHexDigit c = true) src
    /\ exists k : nat,
         List.length src = (2 * k)%nat /\ (k <= List.length todo)%nat
         /\ n = len done + Z.of_nat k
         /\ dst' = done ++ hexBytes src ++ skipn k todo.
Proof.
  induction m as [|m IH]; intros src done todo dst' n Hm H.
  - destruct src; [|simpl in Hm; lia]. simpl in H. injection H as <- <-.
    split; [constructor|]. exists 0%nat. simpl. repeat split; lia.
  - destruct src as [|p [|q src]].
    + simpl in H. injection H as <- <-.
      split; [constructor|]. exists 0%nat. simpl. repeat split; lia.
    + simpl in H. destruct (15 <? hex.reverseHexTable p); discriminate.
    + cbn [hex.Decode_loop] in H.
      destruct (15 <? hex.reverseHexTable p) eqn:Ep; [discriminate|].
      destruct (15 <? hex.reverseHexTable q) eqn:Eq; [discriminate|].
      destruct (len done <? len (done ++ todo)) eqn:El; [|discriminate].
      destruct todo as [|x todo].
      { rewrite app_nil_r, Z.ltb_irrefl in El. discriminate. }
      unfold len at 1 in H. rewrite Nat2Z.id, store_at in H.
      set (v := Z.lor _ _) in *.
      replace (len done + 1) with (len (done ++ [v])) in H
        by (unfold len; rewrite length_app; simpl; lia).
      change (done ++ v :: todo) with (done ++ [v] ++ todo) in H.
      rewrite app_assoc in H.
      apply IH in H as (Hhex & k & Hlen & Hroom & Hn & Hdst);
        [|simpl in Hm; lia].
      split.
      * constructor; [|constructor; [|exact Hhex]].
        -- destruct (isHexDigit p) eqn:E; [reflexivity|].
           apply reverseHexTable_other in E. congruence.
        -- destruct (isHexDigit q) eqn:E; [reflexivity|].
           apply reverseHexTable_other in E. congruence.
      * exists (S k). cbn [List.length hexBytes skipn].
        repeat split; try lia.
        -- rewrite Hn. unfold len. rewrite length_app. simpl. lia.
        -- rewrite Hdst, <- app_assoc. reflexivity.
Qed.

Lemma hexByte_range (p q : ascii) :
  isHexDigit p = true -> isHexDigit q = true ->
  0 <= Z.lor (Z.shiftl (hex.reverseHexTable p) 4) (hex.reverseHexTable q) < 256.
Proof.
  intros Hp Hq.
  apply reverseHexTable_digit in Hp, Hq. apply Z.ltb_ge in Hp, Hq.
  pose proof (reverseHexTable_nonneg p) as Hp0.
  pose proof (reverseHexTable_nonneg q) as Hq0.
  split.
  - apply Z.lor_nonneg. split; [apply Z.shiftl_nonneg|]; assumption.
  - apply (Z.log2_lt_cancel _ 256). 
    destruct (Z.eq_dec (Z.lor (Z.shiftl (hex.reverseHexTable p) 4) (hex.reverseHexTable q)) 0) as [->|Hne]; [reflexivity|].
    rewrite Z.log2_lor by (try apply Z.shiftl_nonneg; assumption).
    change (Z.log2 256) with 8.
    apply Z.max_lub_lt.
    + destruct (Z.eq_dec (hex.reverseHexTable p) 0) as [->|Hp1]; [reflexivity|].
      rewrite Z.log2_shiftl by lia.
      assert (Z.log2 (hex.reverseHexTable p) < 4); [|lia].
      apply Z.log2_lt_pow2; lia.
    + destruct (Z.eq_dec (hex.reverseHexTable q) 0) as [->|Hq1]; [reflexivity|].
      assert (Z.log2 (hex.reverseHexTable q) < 4); [|lia].
      apply Z.log2_lt_pow2; lia.
Qed.

Lemma hexBytes_wf (k : nat) :
  forall h : gostring,
    List.length h = (2 * k)%nat ->
    Forall (fun c => isHexDigit c = true) h ->
    List.length (hexBytes h) = k
    /\ Forall (fun b => 0 <= b < 256) (hexBytes h).
Proof.
  induction k as [|k IH]; intros h Hlen Hhex.
  - destruct h; [|discriminate]. split; [reflexivity|constructor].
  - destruct h as [|p [|q h]]; try (exfalso; simpl in Hlen; lia).
    pose proof (Forall_inv Hhex) as Hp.
    pose proof (Forall_inv (Forall_inv_tail Hhex)) as Hq.
    pose proof (Forall_inv_tail (Forall_inv_tail Hhex)) as Hhex'.
    cbv beta in Hp, Hq.
    destruct (IH h) as [Hl Hb]; [simpl in Hlen; lia|assumption|].
    cbn [hexBytes List.length]. split; [now rewrite Hl|].
    constructor; [now apply hexByte_range|exact Hb].
Qed.

(** ** [ParseDigest] *)

Lemma ParseDigest_colon_digits (h : gostring) :
  List.length h = 64%nat ->
  Forall (fun c => isHexDigit c = true) h ->
  ParseDigest ("sha256:" ++ h)
  = Ok {| Type_ := DigestTypeSHA256; Hash := hexBytes h |}.
Proof.
  intros Hlen Hhex. unfold ParseDigest. cbn [list_ascii_of_string].
  change (["s"; "h"; "a"; "2"; "5"; "6"; ":"]%char ++ h)
    with (list_ascii_of_string "sha256" ++ ":"%char :: h).
  rewrite cutLast_present.
  - cbn [negb]. unfold ParseDigest_decode.
    rewrite streq_refl, (Decode_digits h Hlen Hhex). reflexivity.
  - intros Hin. rewrite Forall_forall in Hhex.
    now apply Hhex, isHexDigit_not_sep in Hin.
Qed.

Lemma ParseDigest_decode_returns (typ hash : gostring) (d : Digest) :
  ParseDigest_decode typ hash = Ok d ->
  d = Digest.zero
  \/ (typ = "sha256" /\ List.length hash = 64%nat
      /\ Forall (fun c => isHexDigit c = true) hash
      /\ d = {| Type_ := DigestTypeSHA256; Hash := hexBytes hash |}).
Proof.
  unfold ParseDigest_decode.
  destruct (streq typ "sha256") eqn:Et; cbn [negb];
    [|intros H; injection H as <-; now left].
  apply streq_eq in Et.
  destruct (hex.Decode (Hash Digest.zero) hash) as [[[dst n] [e|]]|] eqn:E;
    try discriminate; try (intros H; injection H as <-; now left).
  destruct (n =? 32) eqn:En; cbn [negb];
    [|intros H; injection H as <-; now left].
  intros H. injection H as <-. right.
  apply Z.eqb_eq in En. subst n.
  unfold hex.Decode in E.
  change (Hash Digest.zero) with ([] ++ repeat 0 32) in E.
  change 0 with (len (@nil Z)) in E at 2.
  apply (Decode_loop_ok (List.length hash)) in E
    as (Hhex & k & Hlen & _ & Hn & Hdst); [|lia].
  unfold len in Hn. simpl in Hn.
  assert (k = 32%nat) by lia. subst k.
  repeat split; try assumption.
  rewrite Hdst. cbn [app skipn repeat]. now rewrite app_nil_r.
Qed.

(** Whenever [ParseDigest] returns, the result is the zero [Digest] or
    the sha256 [Digest] of exactly 64 hexadecimal digits. *)
Lemma ParseDigest_returns (s : gostring) (d : Digest) :
  ParseDigest s = Ok d ->
  d = Digest.zero
  \/ exists h : gostring,
       (s = "sha256:" ++ h \/ s = "sha256-" ++ h)
       /\ List.length h = 64%nat
       /\ Forall (fun c => isHexDigit c = true) h
       /\ d = {| Type_ := DigestTypeSHA256; Hash := hexBytes h |}.
Proof.
  unfold ParseDigest. cbn [list_ascii_of_string].
  destruct (cutLastP ":"%char s) as [_ | typ h Hs _]; cbn [negb].
  - destruct (cutLastP "-"%char s) as [_ | typ h Hs _]; cbn [negb].
    + intros H. injection H as <-. now left.
    + intros H. apply ParseDigest_decode_returns in H
        as [H | (-> & Hlen & Hhex & ->)]; [now left|right].
      exists h. repeat split; try assumption. right. exact Hs.
  - intros H. apply ParseDigest_decode_returns in H
      as [H | (-> & Hlen & Hhex & ->)]; [now left|right].
    exists h. repeat split; try assumption. left. exact Hs.
Qed.

(** Every [Digest] that [ParseDigest] returns holds 32 bytes. *)
Lemma ParseDigest_wf (s : gostring) (d : Digest) :
  ParseDigest s = Ok d -> wf_Digest d.
Proof.
  intros H. apply ParseDigest_returns in H as [->|(h & _ & Hlen & Hhex & ->)].
  - split; [reflexivity|]. repeat constructor; lia.
  - exact (hexBytes_wf 32 h Hlen Hhex).
Qed.

(** C3 fails on the code: on a hash part of 66 hexadecimal digits
    [hex.Decode] writes a 33rd byte into the 32-byte array and
    [ParseDigest] panics, also when called through [Name.Digest] on a
    valid name. *)
Theorem C3_ParseDigest_panics :
  ParseDigest ("sha256:" ++ repeat "0"%char 66) = Panic
  /\ Name.IsValid (ParseNameNoDefaults ("mm@sha256-" ++ repeat "0"%char 66))
     = true
  /\ Name.Digest (ParseNameNoDefaults ("mm@sha256-" ++ repeat "0"%char 66))
     = Panic.
Proof. repeat split; vm_compute; reflexivity. Qed.

(** ** A colon-form digest in a name *)

(** C10.  For every string [h] of 64 hexadecimal digits that are not all
    ['0'], the name parsed from ["model@sha256:" ++ h] has a valid
    [Digest()] and is itself not valid. *)
Theorem C10_colon_digest (h : gostring) :
  List.length h = 64%nat ->
  Forall (fun c => isHexDigit c = true) h ->
  h <> repeat "0"%char 64 ->
  (exists d, Name.Digest (ParseNameNoDefaults ("model@sha256:" ++ h)) = Ok d
             /\ Digest.IsValid d = true)
  /\ Name.IsValid (ParseNameNoDefaults ("model@sha256:" ++ h)) = false.
Proof.
  intros Hlen Hhex Hnz.
  assert (Hat : ~ In "@"%char ("sha256:" ++ h)).
  { intros Hin. apply in_app_or in Hin as [Hin|Hin].
    - vm_compute in Hin. intuition discriminate.
    - rewrite Forall_forall in Hhex.
      now apply Hhex, isHexDigit_not_sep in Hin. }
  assert (Hparse : ParseNameNoDefaults ("model@sha256:" ++ h)
                   = {| host := ""; namespace := ""; model := "model";
                        tag := ""; rawDigest := "sha256:" ++ h |}).
  { unfold ParseNameNoDefaults.
    change (list_ascii_of_string "model@sha256:" ++ h)
      with (list_ascii_of_string "model" ++ "@"%char :: ("sha256:" ++ h)).
    cbn [list_ascii_of_string] in *.
    rewrite (cutLast_present _ _ _ Hat). reflexivity. }
  rewrite Hparse. split.
  - unfold Name.Digest. cbn [rawDigest].
    rewrite (ParseDigest_colon_digits h Hlen Hhex).
    eexists. split; [reflexivity|].
    unfold Digest.IsValid. cbn [Type_ Hash].
    destruct (list_eq_dec Z.eq_dec (hexBytes h) (repeat 0 32)) as [E|_];
      [|reflexivity].
    exfalso. apply Hnz. now apply (hexBytes_zero 32).
  - destruct (Name.IsValid _) eqn:Hv; [exfalso|reflexivity].
    apply IsValid_true in Hv. destruct Hv as (_ & _ & _ & _ & _ & [Hd|Hd]);
      cbn [rawDigest] in Hd; [discriminate|].
    apply isValidPart_no_colon in Hd; [|discriminate].
    apply Hd. apply in_or_app. left. vm_compute. tauto.
Qed.

Lemma C10_colon_digest_witness :
  (exists d,
     Name.Digest (ParseNameNoDefaults ("model@sha256:" ++ validSHA256Hex))
     = Ok d
     /\ Digest.IsValid d = true)
  /\ Name.IsValid (ParseNameNoDefaults ("model@sha256:" ++ validSHA256Hex))
     = false.
Proof.
  apply (C10_colon_digest validSHA256Hex).
  - reflexivity.
  - repeat constructor.
  - vm_compute. discriminate.
Defined.

(** ** [Digest.String] *)

Lemma hextable_zero (k : Z) :
  0 <= k < 16 -> nth (Z.to_nat k) hex.hextable "0"%char = "0"%char -> k = 0.
Proof.
  intros Hk.
  assert (E : k = 0 \/ k = 1 \/ k = 2 \/ k = 3 \/ k = 4 \/ k = 5 \/ k = 6
              \/ k = 7 \/ k = 8 \/ k = 9 \/ k = 10 \/ k = 11 \/ k = 12
              \/ k = 13 \/ k = 14 \/ k = 15) by lia.
  repeat (destruct E as [->|E]; [vm_compute; congruence|]).
  subst k. vm_compute. congruence.
Qed.

Lemma EncodeToString_length (l : list Z) :
  List.length (hex.EncodeToString l) = (2 * List.length l)%nat.
Proof.
  unfold hex.EncodeToString.
  induction l as [|v l IH]; [reflexivity|].
  cbn [flat_map List.length app]. rewrite IH. lia.
Qed.

Lemma EncodeToString_zeros (k : nat) :
  hex.EncodeToString (repeat 0 k) = repeat "0"%char (2 * k).
Proof.
  induction k as [|k IH]; [reflexivity|].
  replace (2 * S k)%nat with (S (S (2 * k))) by lia.
  cbn [repeat]. rewrite <- IH. reflexivity.
Qed.

(** Only the all-zero bytes are encoded as a string of ['0']. *)
Lemma EncodeToString_zeros_inv (l : list Z) :
  Forall (fun b => 0 <= b < 256) l ->
  hex.EncodeToString l = repeat "0"%char (2 * List.length l) ->
  l = repeat 0 (List.length l).
Proof.
  induction l as [|v l IH]; intros Hb He; [reflexivity|].
  pose proof (Forall_inv Hb) as Hv. cbv beta in Hv.
  apply Forall_inv_tail in Hb.
  cbn [List.length] in He.
  replace (2 * S (List.length l))%nat with (S (S (2 * List.length l)))
    in He by lia.
  unfold hex.EncodeToString in He. cbn [flat_map repeat app] in He.
  pose proof (f_equal (hd "0"%char) He) as Hhi.
  apply (f_equal (@tl ascii)) in He. cbn [hd tl] in Hhi, He.
  pose proof (f_equal (hd "0"%char) He) as Hlo.
  apply (f_equal (@tl ascii)) in He. cbn [hd tl] in Hlo, He.
  rewrite Z.shiftr_div_pow2 in Hhi by lia.
  change 15 with (Z.ones 4) in Hlo. rewrite Z.land_ones in Hlo by lia.
  change (2 ^ 4) with 16 in *.
  apply hextable_zero in Hhi;
    [|split; [apply Z.div_pos; lia | apply Z.div_lt_upper_bound; lia]].
  apply hextable_zero in Hlo; [|apply Z.mod_pos_bound; lia].
  cbn [List.length repeat]. f_equal.
  - rewrite (Z.div_mod v 16) by lia. lia.
  - now apply IH.
Qed.

(** C6, as stated, fails: a [Digest] with an unrecognized [Type] and a
    [Hash] that is not all zero is not valid, and [Digest.String] prints
    its hash. *)
Lemma C6_counterexample :
  Digest.IsValid {| Type_ := 0; Hash := 1 :: repeat 0 31 |} = false
  /\ Digest.String {| Type_ := 0; Hash := 1 :: repeat 0 31 |}
     = "unknown-0100000000000000000000000000000000000000000000000000000000000000"
  /\ Digest.String {| Type_ := 0; Hash := 1 :: repeat 0 31 |}
     <> "unknown-" ++ zeros64.
Proof. repeat split. vm_compute. discriminate. Qed.

(** C6, amended.  [Digest.String] is total: for every [Digest] it gives
    the name of the type (["sha256"] or ["unknown"]), then ['-'], then
    the 64 hexadecimal digits of the [Hash].  For a [Digest] that is not
    valid and has the sha256 type this is ["sha256-"] and 64 zeros; for
    an unrecognized type it is ["unknown-"] and the digits of the
    [Hash], which are 64 zeros exactly when the [Hash] is all zero. *)
Theorem C6_Digest_String (d : Digest) :
  wf_Digest d ->
  Digest.String d
  = DigestType.String (Type_ d) ++ "-" ++ hex.EncodeToString (Hash d)
  /\ List.length (hex.EncodeToString (Hash d)) = 64%nat
  /\ (Digest.IsValid d = false -> Type_ d = DigestTypeSHA256 ->
      Digest.String d = "sha256-" ++ zeros64)
  /\ (Type_ d <> DigestTypeSHA256 ->
      Digest.IsValid d = false
      /\ DigestType.String (Type_ d) = "unknown"
      /\ (Digest.String d = "unknown-" ++ zeros64 <-> Hash d = repeat 0 32)).
Proof.
  intros [Hlen Hbytes].
  assert (Hs : Digest.String d
               = DigestType.String (Type_ d) ++ "-"
                   ++ hex.EncodeToString (Hash d)).
  { unfold Digest.String. cbn [app list_ascii_of_string].
    now rewrite <- app_assoc. }
  split; [exact Hs|]. split; [rewrite EncodeToString_length; lia|].
  rewrite Hs. unfold Digest.IsValid, DigestType.String. split.
  - intros Hv Ht. rewrite Ht in *. cbn [Z.eqb Pos.eqb negb] in *.
    destruct (list_eq_dec Z.eq_dec (Hash d) (repeat 0 32)) as [E|_];
      [|discriminate].
    rewrite E. reflexivity.
  - intros Ht. apply Z.eqb_neq in Ht. rewrite Ht. cbn [negb].
    split; [reflexivity|]. split; [reflexivity|]. split.
    + intros E. apply (f_equal (skipn 8)) in E.
      cbn [list_ascii_of_string app skipn] in E.
      rewrite <- Hlen. apply EncodeToString_zeros_inv; [assumption|].
      rewrite E, Hlen. reflexivity.
    + intros ->. reflexivity.
Qed.

Lemma C6_Digest_String_witness :
  Digest.String Digest.zero
  = DigestType.String (Type_ Digest.zero) ++ "-"
      ++ hex.EncodeToString (Hash Digest.zero)
  /\ Digest.String Digest.zero = "unknown-" ++ zeros64.
Proof.
  assert (Hwf : wf_Digest Digest.zero).
  { split; [reflexivity|]. repeat constructor; lia. }
  destruct (C6_Digest_String Digest.zero Hwf) as (Hs & _ & _ & Hu).
  split; [exact Hs|].
  assert (Ht : Type_ Digest.zero <> DigestTypeSHA256) by discriminate.
  destruct (Hu Ht) as (_ & _ & Hiff). apply Hiff. reflexivity.
Defined.

(** ** [Name.MapHash] and [Name.Equal] *)

Lemma writeLower_written (w : maphash.Hash) (s : gostring) :
  Name.writeLower w s
  = {| maphash.seed := maphash.seed w;
       maphash.written := maphash.written w ++ map lowerByte (visited s) |}.
Proof.
  unfold Name.writeLower, visited. revert w.
  induction (runtime.range s) as [|[i c] iters IH]; intros w.
  - simpl. rewrite app_nil_r. now destruct w.
  - cbn [fold_left map snd]. rewrite IH. unfold lowerByte.
    destruct ((byte_val "A" <=? byte_val c) && (byte_val c <=? byte_val "Z"));
      cbn [maphash.WriteByte maphash.seed maphash.written];
      now rewrite <- app_assoc.
Qed.

(** [MapHash] hashes the lower-cased bytes read from the fields, one
    field after the other with nothing in between. *)
Lemma MapHash_concat (seed : Z) (rthash : Z -> gostring -> Z) (n : Name) :
  Name.MapHash seed rthash n
  = rthash seed
      (map lowerByte
         (visited (host n) ++ visited (namespace n) ++ visited (model n)
          ++ visited (tag n) ++ visited (rawDigest n))).
Proof.
  unfold Name.MapHash, Name.Sum64. rewrite !writeLower_written.
  cbn [maphash.seed maphash.written maphash.SetSeed app].
  now rewrite !map_app, <- !app_assoc.
Qed.

(** C9.  Whatever the seed and the hash function, the name with model
    ["ab"] and the name with model ["a"] and tag ["b"] are not equal
    field by field up to case, and yet have the same [MapHash] and are
    [Equal]. *)
Theorem C9_MapHash_collision (seed : Z) (rthash : Z -> gostring -> Z) :
  exists n o : Name,
    n = {| host := ""; namespace := ""; model := "ab"; tag := "";
           rawDigest := "" |}
    /\ o = {| host := ""; namespace := ""; model := "a"; tag := "b";
              rawDigest := "" |}
    /\ ~ fieldsEqualFold n o
    /\ Name.MapHash seed rthash n = Name.MapHash seed rthash o
    /\ Name.Equal seed rthash n o = true.
Proof.
  eexists. eexists. split; [reflexivity|]. split; [reflexivity|].
  split; [|split].
  - intros (_ & _ & Hm & _). vm_compute in Hm. discriminate.
  - rewrite !MapHash_concat. reflexivity.
  - unfold Name.Equal. rewrite !MapHash_concat. apply Z.eqb_refl.
Qed.

(** * Further properties of the package *)

(** ** [cutLast] and [cutPromised] on any separator *)

Lemma slice_split (s : gostring) (i : Z) : slice_to s i ++ slice_from s i = s.
Proof. apply firstn_skipn. Qed.

Lemma HasPrefix_split (p s : gostring) :
  strings.HasPrefix s p = true -> s = p ++ skipn (List.length p) s.
Proof.
  revert s. induction p as [|x p IH]; intros s H; [reflexivity|].
  destruct s as [|c s]; [discriminate|]. cbn [strings.HasPrefix] in H.
  apply andb_true_iff in H as [Hc H]. apply Ascii.eqb_eq in Hc. subst c.
  cbn [List.length skipn app]. f_equal. now apply IH.
Qed.

Lemma slice_from_add (s : gostring) (i n : Z) :
  0 <= i -> 0 <= n -> slice_from s (i + n) = slice_from (slice_from s i) n.
Proof.
  intros Hi Hn. unfold slice_from. rewrite skipn_skipn. f_equal. lia.
Qed.

Lemma cutLast_found (s sep : gostring) :
  0 <= strings.LastIndex s sep ->
  s = slice_to s (strings.LastIndex s sep) ++ sep
        ++ slice_from s (strings.LastIndex s sep + len sep)
  /\ len (slice_to s (strings.LastIndex s sep)) = strings.LastIndex s sep.
Proof.
  intros Hi. pose proof (LastIndex_range s sep) as Hr.
  pose proof (LastIndex_found s sep Hi) as Hp.
  apply HasPrefix_split in Hp. split.
  - rewrite slice_from_add by (unfold len; lia).
    unfold slice_from at 1, len at 1. rewrite Nat2Z.id, <- Hp.
    symmetry. apply slice_split.
  - unfold slice_to, len in *. rewrite length_firstn. lia.
Qed.

(** X1.  [cutLast] cuts [s] at the last occurrence of [sep]: when it
    reports [true] the two sides and [sep] spell [s] and [sep] does not
    occur further right; when it reports [false] it returns [s] and the
    empty string, and [sep] does not occur in [s]. *)
Theorem X1_cutLast_last_occurrence (s sep : gostring) :
  match cutLast s sep with
  | (before, after, true) =>
      s = before ++ sep ++ after
      /\ forall j, len before < j <= len s ->
                   strings.HasPrefix (slice_from s j) sep = false
  | (before, after, false) =>
      before = s /\ after = []
      /\ forall j, 0 <= j <= len s ->
                   strings.HasPrefix (slice_from s j) sep = false
  end.
Proof.
  unfold cutLast.
  destruct (Z.leb_spec 0 (strings.LastIndex s sep)) as [Hi|Hi].
  - destruct (cutLast_found s sep Hi) as [Hs Hl]. split; [exact Hs|].
    intros j Hj. apply LastIndex_last. lia.
  - repeat split. intros j Hj. apply LastIndex_last. lia.
Qed.

(** X2.  When [cutPromised] finds the separator, neither side it returns
    is empty: each is the side that [cutLast] returns, or [MissingPart]
    when that side is empty.  When it does not find the separator it
    returns what [cutLast] returns. *)
Theorem X2_cutPromised_sides (s sep : gostring) :
  match cutPromised s sep, cutLast s sep with
  | (before, after, true), (before0, after0, ok) =>
      ok = true /\ before <> [] /\ after <> []
      /\ before = (if streq before0 [] then MissingPart else before0)
      /\ after = (if streq after0 [] then MissingPart else after0)
  | (before, after, false), (before0, after0, ok) =>
      ok = false /\ before = s /\ after = []
  end.
Proof.
  unfold cutPromised, cutLast.
  destruct (0 <=? strings.LastIndex s sep); cbn [negb].
  - unfold cmp.Or. cbn [list_ascii_of_string].
    destruct (slice_to s _), (slice_from s _); cbn [streq negb];
      repeat split; discriminate.
  - now repeat split.
Qed.

(** ** The rule table of [isValidPart] *)

Lemma partChar_step (kind : partKind) (i : Z) (c : ascii)
      (iters : list (Z * ascii)) :
  i <> 0 -> partChar kind c = true ->
  isValidPart_loop kind ((i, c) :: iters) = isValidPart_loop kind iters.
Proof.
  intros Hi Hc. cbn [isValidPart_loop].
  apply Z.eqb_neq in Hi. rewrite Hi. revert Hc. unfold partChar.
  destruct (Ascii.eqb_spec c "_") as [->|_]; [reflexivity|].
  destruct (Ascii.eqb_spec c "-") as [->|_]; [reflexivity|].
  destruct (Ascii.eqb_spec c ".") as [->|_].
  { destruct (kind =? kindNamespace); [|reflexivity].
    destruct (kind =? kindHost); discriminate. }
  destruct (Ascii.eqb_spec c ":") as [->|_].
  { destruct (kind =? kindHost); [reflexivity|].
    destruct (kind =? kindNamespace); discriminate. }
  cbn [orb andb]. rewrite !orb_false_r. now intros ->.
Qed.

Lemma isValidPart_loop_pass (kind : partKind) (s : gostring) :
  forall i, 0 < i ->
    Forall (fun c => partChar kind c = true) s ->
    isValidPart_loop kind (runtime.range_from i 0 s) = true.
Proof.
  induction s as [|c s IH]; intros i Hi Hs; [reflexivity|].
  pose proof (Forall_inv Hs) as Hc. cbv beta in Hc.
  apply Forall_inv_tail in Hs.
  cbn [runtime.range_from].
  rewrite (runeWidth_ascii c s (partChar_ascii kind c Hc)).
  rewrite partChar_step by (assumption || lia).
  apply IH; [lia|assumption].
Qed.

Lemma isAlphanumeric_partChar (kind : partKind) (c : ascii) :
  isAlphanumeric c = true -> partChar kind c = true.
Proof. intros H. unfold partChar. now rewrite H. Qed.

Lemma isValidPart_rule (kind : partKind) (s : gostring) :
  isValidPart kind s = true <->
  isValidLen kind s = true
  /\ exists c r, s = c :: r /\ isAlphanumeric c = true
                 /\ Forall (fun c => partChar kind c = true) r.
Proof.
  split.
  - intros H. pose proof (isValidPart_chars kind s H) as Hchars.
    pose proof (isValidPart_nonempty kind s H) as Hne.
    destruct s as [|c r]; [congruence|].
    split; [apply (isValidPart_inv kind _ H)|].
    exists c, r. split; [reflexivity|].
    split; [exact (isValidPart_first kind c r H)|].
    exact (Forall_inv_tail Hchars).
  - intros (Hlen & c & r & -> & Hc & Hr).
    unfold isValidPart. rewrite Hlen. cbn [negb].
    unfold runtime.range. cbn [runtime.range_from isValidPart_loop Z.eqb].
    rewrite Hc. cbn [negb].
    rewrite (runeWidth_ascii c r
               (partChar_ascii kind c (isAlphanumeric_partChar kind c Hc))).
    now apply isValidPart_loop_pass.
Qed.

(** X3.  [isValidPart] accepts exactly the strings whose length is in
    the range of the kind, whose first byte is alphanumeric and whose
    other bytes are alphanumeric, ['_'], ['-'], ['.'] (not in a
    namespace) or [':'] (only in a host). *)
Theorem X3_isValidPart_rule_table (kind : partKind) (s : gostring) :
  isValidPart kind s = true <->
  isValidLen kind s = true
  /\ exists c r, s = c :: r /\ isAlphanumeric c = true
                 /\ Forall (fun c => partChar kind c = true) r.
Proof. exact (isValidPart_rule kind s). Qed.

(** ** The strings that parse to a valid name *)

Lemma partChar_nameByte (kind : partKind) (c : ascii) :
  partChar kind c = true -> nameByte c = true.
Proof.
  unfold partChar, nameByte.
  destruct (isAlphanumeric c), (Ascii.eqb c "_"), (Ascii.eqb c "-"),
    (Ascii.eqb c "."), (Ascii.eqb c ":"); cbn; try reflexivity;
    try discriminate.
Qed.

Lemma okPart_nameBytes (kind : partKind) (p : gostring) :
  okPart kind p -> Forall (fun c => nameByte c = true) p.
Proof.
  intros [->|H]; [constructor|].
  apply isValidPart_chars in H.
  eapply Forall_impl; [|exact H]. intros c. apply partChar_nameByte.
Qed.

Lemma okPart_len (kind : partKind) (p : gostring) :
  okPart kind p -> len p <= (if kind =? kindHost then 350 else 80).
Proof.
  intros [->|H]; [destruct (kind =? kindHost); unfold len; simpl; lia|].
  apply isValidPart_inv in H as [H _]. unfold isValidLen in H.
  destruct (kind =? kindHost); [|destruct (kind =? kindTag)];
    apply andb_true_iff in H as [_ H]; now apply Z.leb_le in H.
Qed.

Lemma countByte_absent (c : ascii) (p : gostring) :
  ~ In c p -> countByte c p = 0%nat.
Proof. intros H. now apply count_occ_not_In. Qed.

Lemma countByte_app (c : ascii) (a b : gostring) :
  countByte c (a ++ b) = (countByte c a + countByte c b)%nat.
Proof. apply count_occ_app. Qed.

Lemma len_app (a b : gostring) : len (a ++ b) = len a + len b.
Proof. unfold len. rewrite length_app. lia. Qed.

Lemma withSlash_facts (kind : partKind) (p : gostring) :
  okPart kind p ->
  Forall (fun c => nameByte c = true) (withSlash p)
  /\ countByte "@" (withSlash p) = 0%nat
  /\ (countByte "/" (withSlash p) <= 1)%nat
  /\ len (withSlash p) <= len p + 1.
Proof.
  intros H. pose proof (okPart_nameBytes _ _ H) as Hb.
  pose proof (okPart_no_at _ _ H) as Hat.
  pose proof (okPart_no_slash _ _ H) as Hsl.
  destruct p as [|x p].
  { split; [constructor|]. split; [reflexivity|].
    split; [simpl; lia|unfold len; simpl; lia]. }
  unfold withSlash. rewrite !countByte_app, len_app.
  rewrite (countByte_absent _ _ Hat), (countByte_absent _ _ Hsl).
  repeat split; try (unfold len; cbn [List.length countByte count_occ]; simpl; lia).
  apply Forall_app. split; [exact Hb|]. now repeat constructor.
Qed.

Lemma withLead_facts (kind : partKind) (x : ascii) (p : gostring) :
  okPart kind p -> nameByte x = true -> x <> "/"%char ->
  Forall (fun c => nameByte c = true) (withLead x p)
  /\ (countByte "@" (withLead x p) <= if ascii_dec x "@" then 1 else 0)%nat
  /\ countByte "/" (withLead x p) = 0%nat
  /\ len (withLead x p) <= len p + 1.
Proof.
  intros H Hx Hxs. pose proof (okPart_nameBytes _ _ H) as Hb.
  pose proof (okPart_no_at _ _ H) as Hat.
  pose proof (okPart_no_slash _ _ H) as Hsl.
  destruct p as [|y p].
  { split; [constructor|]. split; [simpl; lia|].
    split; [reflexivity|unfold len; simpl; lia]. }
  unfold withLead.
  change (x :: y :: p) with ([x] ++ y :: p).
  rewrite !countByte_app, len_app.
  rewrite (countByte_absent _ _ Hat), (countByte_absent _ _ Hsl).
  repeat split.
  - apply Forall_app. split; [now repeat constructor|exact Hb].
  - unfold countByte. simpl. destruct (ascii_dec x "@"); lia.
  - unfold countByte. simpl.
    destruct (ascii_dec x "/"); [contradiction|reflexivity].
  - unfold len. cbn [List.length]. lia.
Qed.

Lemma String_valid_facts (n : Name) :
  Name.IsValid n = true ->
  Forall (fun c => nameByte c = true) (Name.String n)
  /\ (countByte "@" (Name.String n) <= 1)%nat
  /\ (countByte "/" (Name.String n) <= 2)%nat
  /\ len (Name.String n) <= 674.
Proof.
  intros Hv. rewrite (String_valid n Hv).
  apply IsValid_true in Hv. destruct Hv as (_ & Hh & Hns & Hm & Ht & Hd).
  destruct (withSlash_facts _ _ Hh) as (Bh & Ah & Sh & Lh).
  destruct (withSlash_facts _ _ Hns) as (Bn & An & Sn & Ln).
  destruct (withLead_facts _ ":" _ Ht) as (Bt & At & St & Lt);
    [reflexivity|discriminate|].
  destruct (withLead_facts _ "@" _ Hd) as (Bd & Ad & Sd & Ld);
    [reflexivity|discriminate|].
  pose proof (okPart_len _ _ Hh) as Lh'. pose proof (okPart_len _ _ Hns) as Ln'.
  pose proof (okPart_len _ _ Hm) as Lm'. pose proof (okPart_len _ _ Ht) as Lt'.
  pose proof (okPart_len _ _ Hd) as Ld'.
  cbn [Z.eqb kindHost kindNamespace kindModel kindTag kindDigest] in *.
  rewrite !countByte_app, !len_app.
  rewrite (countByte_absent _ _ (okPart_no_at _ _ Hm)).
  rewrite (countByte_absent _ _ (okPart_no_slash _ _ Hm)).
  cbn [ascii_dec] in At, Ad.
  destruct (ascii_dec ":" "@") as [E|_]; [discriminate E|].
  destruct (ascii_dec "@" "@") as [_|E]; [|now elim E].
  repeat split; try lia.
  repeat (apply Forall_app; split); try assumption.
  exact (okPart_nameBytes _ _ Hm).
Qed.

(** X4.  A string that parses to a valid name is made of alphanumeric
    bytes and the bytes [_ - . : / @] only, begins with an alphanumeric
    byte or with ['@'], holds at most one ['@'] and at most two ['/'],
    and is at most 674 bytes long. *)
Theorem X4_valid_name_strings (s : gostring) :
  Name.IsValid (ParseNameNoDefaults s) = true ->
  Forall (fun c => nameByte c = true) s
  /\ (exists c r, s = c :: r /\ (isAlphanumeric c = true \/ c = "@"%char))
  /\ (countByte "@" s <= 1)%nat
  /\ (countByte "/" s <= 2)%nat
  /\ len s <= 674.
Proof.
  intros Hv. pose proof (String_Parse s Hv) as Hs.
  destruct (String_valid_facts _ Hv) as (Hb & Hat & Hsl & Hl).
  rewrite Hs in Hb, Hat, Hsl, Hl.
  repeat split; try assumption.
  pose proof (parse_canonical s Hv) as (S1 & S2 & _).
  rewrite (String_valid _ Hv) in Hs.
  pose proof Hv as Hv'. apply IsValid_true in Hv'.
  destruct Hv' as (Hne & Hh & Hns & Hm & _ & Hd).
  set (n := ParseNameNoDefaults s) in *.
  assert (Hfirst : forall kind p rest, okPart kind p -> p <> [] ->
            exists c r, p ++ rest = c :: r /\ isAlphanumeric c = true).
  { intros kind p rest [->|H] Hp; [congruence|].
    destruct p as [|c p]; [congruence|].
    exists c, (p ++ rest). split; [reflexivity|].
    exact (isValidPart_first kind c p H). }
  destruct (list_eq_dec ascii_dec (host n) []) as [Eh|Nh].
  - destruct (list_eq_dec ascii_dec (namespace n) []) as [En|Nn].
    + rewrite Eh, En in Hs. cbn [withSlash app] in Hs.
      destruct (list_eq_dec ascii_dec (model n) []) as [Em|Nm].
      * destruct (S2 Em) as (_ & _ & Et). rewrite Em, Et in Hs.
        cbn [withLead app] in Hs.
        destruct Hne as [Hne|Hne]; [contradiction|].
        rewrite (withLead_nonempty _ _ Hne) in Hs.
        exists "@"%char, (rawDigest n). split; [now symmetry|now right].
      * destruct (Hfirst _ _ (withLead ":" (tag n) ++ withLead "@" (rawDigest n))
                    Hm Nm) as (c & r & E & Hc).
        exists c, r. split; [now rewrite <- Hs|now left].
    + rewrite Eh in Hs. cbn [withSlash app] in Hs.
      rewrite (withSlash_nonempty _ Nn), <- app_assoc in Hs.
      destruct (Hfirst _ _ (["/"%char] ++ model n ++ withLead ":" (tag n)
                              ++ withLead "@" (rawDigest n)) Hns Nn)
        as (c & r & E & Hc).
      exists c, r. split; [now rewrite <- Hs|now left].
  - rewrite (withSlash_nonempty _ Nh), <- app_assoc in Hs.
    destruct (Hfirst _ _ (["/"%char] ++ withSlash (namespace n) ++ model n
                            ++ withLead ":" (tag n)
                            ++ withLead "@" (rawDigest n)) Hh Nh)
      as (c & r & E & Hc).
    exists c, r. split; [now rewrite <- Hs|now left].
Qed.

Lemma X4_valid_name_strings_witness :
  Forall (fun c => nameByte c = true)
    (list_ascii_of_string "host:https/namespace/model:tag@dd")
  /\ (exists c r, list_ascii_of_string "host:https/namespace/model:tag@dd"
                  = c :: r /\ (isAlphanumeric c = true \/ c = "@"%char))
  /\ (countByte "@" "host:https/namespace/model:tag@dd" <= 1)%nat
  /\ (countByte "/" "host:https/namespace/model:tag@dd" <= 2)%nat
  /\ len (list_ascii_of_string "host:https/namespace/model:tag@dd") <= 674.
Proof.
  apply (X4_valid_name_strings "host:https/namespace/model:tag@dd").
  reflexivity.
Defined.

(** ** What the parser returns on any input *)

Lemma Or_Missing_notin (c : ascii) (x : gostring) :
  ~ In c x -> ~ In c MissingPart -> ~ In c (cmp.Or x MissingPart).
Proof. destruct x; [now rewrite Or_empty|now cbn]. Qed.

Lemma Missing_no_colon : ~ In ":"%char MissingPart.
Proof. cbv. intuition discriminate. Qed.

Lemma Missing_no_at : ~ In "@"%char MissingPart.
Proof. cbv. intuition discriminate. Qed.

Lemma parsePath_no_slash (p t d : gostring) :
  ~ In "/"%char (model (parsePath p t d))
  /\ ~ In "/"%char (namespace (parsePath p t d)).
Proof.
  unfold parsePath, cutPromised. cbn [list_ascii_of_string].
  destruct (cutLastP "/"%char p) as [Hp | p1 m _ Hm]; cbn [negb].
  - fields. split; [exact Hp|intros []].
  - destruct (cutLastP "/"%char (cmp.Or p1 MissingPart))
      as [Hp1 | p2 ns _ Hns]; cbn [negb]; fields;
      (split; [apply Or_Missing_notin; [assumption|apply Missing_no_slash]|]);
      [exact Hp1|apply Or_Missing_notin; [assumption|apply Missing_no_slash]].
Qed.

(** X5.  On every input the parser leaves no ['@'] in the raw digest, no
    [':'] in the tag and no ['/'] in the model and in the namespace:
    each cut is at the last occurrence of its separator. *)
Theorem X5_parser_cuts_at_last (s : gostring) :
  ~ In "@"%char (rawDigest (ParseNameNoDefaults s))
  /\ ~ In ":"%char (tag (ParseNameNoDefaults s))
  /\ ~ In "/"%char (model (ParseNameNoDefaults s))
  /\ ~ In "/"%char (namespace (ParseNameNoDefaults s)).
Proof.
  rewrite ParseNameNoDefaults_path. unfold cutPromised.
  cbn [list_ascii_of_string].
  destruct (cutLastP "@"%char s) as [Hat | s1 d _ Hd];
    [cbn [andb] | rewrite promised_digest];
    match goal with
    | |- context [cutLast ?x [":"%char]] =>
        destruct (cutLastP ":"%char x) as [Hc | s2 t _ Ht]
    end; cbn [negb];
    match goal with
    | |- context [parsePath ?p ?t ?d] =>
        destruct (parsePath_tag p t d) as [-> ->];
        destruct (parsePath_no_slash p t d) as [Hm Hn]
    end;
    repeat split; try assumption; try (intros []);
    apply Or_Missing_notin;
    solve [assumption | apply Missing_no_colon | apply Missing_no_at].
Qed.

(** ** Dangling separators *)

Lemma last_app_nonempty (a p : gostring) (d : ascii) :
  p <> [] -> last (a ++ p) d = last p d.
Proof.
  intros Hp. induction a as [|x a IH]; [reflexivity|].
  cbn [app]. destruct (a ++ p) eqn:E.
  - apply app_eq_nil in E as [_ E]. contradiction.
  - rewrite <- E in *. cbn [last]. rewrite E. rewrite <- E. exact IH.
Qed.

Lemma last_in (p : gostring) (d : ascii) : p <> [] -> In (last p d) p.
Proof.
  induction p as [|x p IH]; [congruence|]. intros _.
  destruct p as [|y p]; [now left|].
  right. apply IH. discriminate.
Qed.

Lemma withLead_last (x d : ascii) (p : gostring) :
  p <> [] -> last (withLead x p) d = last p d.
Proof.
  intros Hp. rewrite (withLead_nonempty x p Hp).
  change (x :: p) with ([x] ++ p). now apply last_app_nonempty.
Qed.

(** The last byte of the string of a valid name belongs to a field that
    is not the host. *)
Lemma String_valid_last (n : Name) (d : ascii) :
  Name.IsValid n = true ->
  exists kind, kind <> kindHost
               /\ partChar kind (last (Name.String n) d) = true.
Proof.
  intros Hv. rewrite (String_valid n Hv).
  apply IsValid_true in Hv. destruct Hv as (Hne & _ & _ & Hm & Ht & Hd).
  assert (Hin : forall kind p, okPart kind p -> p <> [] ->
                  partChar kind (last p d) = true).
  { intros kind p [->|H] Hp; [congruence|].
    apply isValidPart_chars in H. rewrite Forall_forall in H.
    apply H. now apply last_in. }
  rewrite !app_assoc.
  destruct (list_eq_dec ascii_dec (rawDigest n) []) as [Ed|Nd].
  - rewrite Ed. cbn [withLead]. rewrite app_nil_r.
    destruct Hne as [Nm|Nd]; [|contradiction].
    destruct (list_eq_dec ascii_dec (tag n) []) as [Et|Nt].
    + rewrite Et. cbn [withLead]. rewrite app_nil_r.
      rewrite last_app_nonempty by assumption.
      exists kindModel. split; [discriminate|now apply Hin].
    + rewrite last_app_nonempty
        by (rewrite withLead_nonempty by assumption; discriminate).
      rewrite withLead_last by assumption.
      exists kindTag. split; [discriminate|now apply Hin].
  - rewrite last_app_nonempty
      by (rewrite withLead_nonempty by assumption; discriminate).
    rewrite withLead_last by assumption.
    exists kindDigest. split; [discriminate|now apply Hin].
Qed.

(** X6.  No string that ends in one of the separators ['/'], [':'] and
    ['@'] parses to a valid name. *)
Theorem X6_trailing_separator_invalid (s : gostring) (c : ascii) :
  c = "/"%char \/ c = ":"%char \/ c = "@"%char ->
  Name.IsValid (ParseNameNoDefaults (s ++ [c])) = false.
Proof.
  intros Hc.
  destruct (Name.IsValid (ParseNameNoDefaults (s ++ [c]))) eqn:Hv;
    [exfalso|reflexivity].
  destruct (String_valid_last _ c Hv) as (kind & Hk & Hl).
  rewrite (String_Parse _ Hv), last_last in Hl.
  destruct Hc as [-> | [-> | ->]].
  - now apply partChar_not_sep in Hl.
  - now apply (partChar_not_colon kind _ Hk) in Hl.
  - now apply partChar_not_sep in Hl.
Qed.

Lemma X6_trailing_separator_invalid_witness :
  Name.IsValid (ParseNameNoDefaults ("hh/nn/mm" ++ [":"%char])) = false.
Proof.
  apply (X6_trailing_separator_invalid "hh/nn/mm" ":"). right. now left.
Defined.

(** ** [Name.Merge], [DefaultName] and [ParseName] *)

Lemma Or_assoc (a b c : gostring) :
  cmp.Or (cmp.Or a b) c = cmp.Or a (cmp.Or b c).
Proof. destruct a; [reflexivity|reflexivity]. Qed.

Lemma Or_self (a : gostring) : cmp.Or a a = a.
Proof. now destruct a. Qed.

Lemma Or_nil_r (a : gostring) : cmp.Or a [] = a.
Proof. now destruct a. Qed.

Lemma Or_Or_same (a b : gostring) : cmp.Or (cmp.Or a b) b = cmp.Or a b.
Proof. rewrite Or_assoc. now rewrite Or_self. Qed.

(** X7.  [Merge] is associative, the zero [Name] is its unit on both
    sides up to the model and digest that a merge keeps, and merging the
    same defaults twice changes nothing. *)
Theorem X7_Merge_algebra (a b c : Name) :
  Name.Merge (Name.Merge a b) c = Name.Merge a (Name.Merge b c)
  /\ Name.Merge a Name.zero = a
  /\ Name.Merge Name.zero a
     = {| host := host a; namespace := namespace a; model := "";
          tag := tag a; rawDigest := "" |}
  /\ Name.Merge (Name.Merge a b) b = Name.Merge a b
  /\ Name.Merge a a = a.
Proof.
  destruct a as [ha na ma ta da], b as [hb nb mb tb db],
    c as [hc nc mc tc dc].
  unfold Name.Merge, Name.zero. fields. cbn [list_ascii_of_string].
  rewrite !Or_assoc, !Or_self, !Or_nil_r, !Or_empty. repeat split.
Qed.

Lemma okPart_Or_both (kind : partKind) (a b : gostring) :
  okPart kind a -> okPart kind b -> okPart kind (cmp.Or a b).
Proof. intros Ha Hb. destruct a; [now rewrite Or_empty|exact Ha]. Qed.

Lemma okPart_Or_left (kind : partKind) (a b : gostring) :
  okPart kind (cmp.Or a b) -> okPart kind a.
Proof. destruct a; [intros _; now left|auto]. Qed.

Lemma IsValid_Merge (n o : Name) :
  (Name.IsValid (Name.Merge n o) = true -> Name.IsValid n = true)
  /\ (okPart kindHost (host o) -> okPart kindNamespace (namespace o) ->
      okPart kindTag (tag o) ->
      Name.IsValid (Name.Merge n o) = Name.IsValid n).
Proof.
  assert (H1 : Name.IsValid (Name.Merge n o) = true -> Name.IsValid n = true).
  { rewrite !IsValid_true. unfold Name.Merge. fields.
    intros (Hne & Hh & Hn & Hm & Ht & Hd).
    repeat split; try assumption; eapply okPart_Or_left; eassumption. }
  split; [exact H1|]. intros Hh Hn Ht.
  destruct (Name.IsValid n) eqn:Hv.
  - apply IsValid_true. apply IsValid_true in Hv.
    destruct Hv as (Hne & Hh' & Hn' & Hm' & Ht' & Hd').
    unfold Name.Merge. fields.
    repeat split; try assumption; now apply okPart_Or_both.
  - destruct (Name.IsValid (Name.Merge n o)); [|reflexivity].
    symmetry. now apply H1.
Qed.

(** X8.  If a merged name is valid, the name merged into was valid.  If
    the host, namespace and tag of the defaults are each empty or a
    valid part, merging them in does not change validity. *)
Theorem X8_Merge_validity (n o : Name) :
  (Name.IsValid (Name.Merge n o) = true -> Name.IsValid n = true)
  /\ (okPart kindHost (host o) -> okPart kindNamespace (namespace o) ->
      okPart kindTag (tag o) ->
      Name.IsValid (Name.Merge n o) = Name.IsValid n).
Proof. exact (IsValid_Merge n o). Qed.

Lemma X8_Merge_validity_witness :
  Name.IsValid (ParseNameNoDefaults "mm") = true
  /\ Name.IsValid (Name.Merge (ParseNameNoDefaults "mm") DefaultName)
     = Name.IsValid (ParseNameNoDefaults "mm").
Proof.
  destruct (X8_Merge_validity (ParseNameNoDefaults "mm") DefaultName)
    as [H1 H2].
  split; [apply H1; reflexivity|].
  apply H2; right; reflexivity.
Defined.

Lemma DefaultName_parts :
  okPart kindHost (host DefaultName)
  /\ okPart kindNamespace (namespace DefaultName)
  /\ okPart kindTag (tag DefaultName).
Proof. repeat split; right; reflexivity. Qed.

Lemma ParseName_valid (s : gostring) :
  Name.IsValid (ParseName s) = Name.IsValid (ParseNameNoDefaults s).
Proof.
  destruct DefaultName_parts as (Hh & Hn & Ht).
  now apply IsValid_Merge.
Qed.

Lemma ParseName_parts (s : gostring) :
  host (ParseName s) <> [] /\ namespace (ParseName s) <> []
  /\ tag (ParseName s) <> [].
Proof.
  unfold ParseName, Name.Merge, DefaultName. fields.
  repeat split;
    match goal with
    | |- cmp.Or ?a _ <> [] => destruct a; discriminate
    end.
Qed.

(** X9.  [ParseName] accepts exactly the strings that
    [ParseNameNoDefaults] accepts, and the name it returns always has a
    host, a namespace and a tag. *)
Theorem X9_ParseName_valid (s : gostring) :
  Name.IsValid (ParseName s) = Name.IsValid (ParseNameNoDefaults s)
  /\ host (ParseName s) <> [] /\ namespace (ParseName s) <> []
  /\ tag (ParseName s) <> [].
Proof.
  split; [apply ParseName_valid|apply ParseName_parts].
Qed.

Lemma ParseName_canonical (s : gostring) :
  model (ParseName s) <> [] -> canonical (ParseName s).
Proof.
  intros Hm. unfold canonical. split; [|split].
  - intros _. apply (ParseName_parts s).
  - intros E. contradiction.
  - intros E. exfalso. now apply (ParseName_parts s).
Qed.

Lemma ParseName_again (s : gostring) :
  Name.IsValid (ParseNameNoDefaults s) = true ->
  model (ParseNameNoDefaults s) <> [] ->
  ParseNameNoDefaults (Name.String (ParseName s)) = ParseName s.
Proof.
  intros Hv Hm. apply parse_string_canonical.
  - now rewrite ParseName_valid.
  - apply ParseName_canonical. exact Hm.
Qed.

(** X10.  For a string that parses to a valid name with a model, the
    fully qualified string that [ParseName] and [String] produce parses
    back, with or without defaults, to the name [ParseName] returned. *)
Theorem X10_ParseName_round_trip (s : gostring) :
  Name.IsValid (ParseNameNoDefaults s) = true ->
  model (ParseNameNoDefaults s) <> [] ->
  ParseNameNoDefaults (Name.String (ParseName s)) = ParseName s
  /\ ParseName (Name.String (ParseName s)) = ParseName s.
Proof.
  intros Hv Hm. pose proof (ParseName_again s Hv Hm) as H.
  split; [exact H|].
  unfold ParseName at 1. rewrite H. unfold ParseName.
  destruct (ParseNameNoDefaults s) as [h n m t d].
  unfold Name.Merge. fields. now rewrite !Or_Or_same.
Qed.

Lemma X10_ParseName_round_trip_witness :
  ParseNameNoDefaults (Name.String (ParseName "xx")) = ParseName "xx"
  /\ ParseName (Name.String (ParseName "xx")) = ParseName "xx".
Proof.
  apply (X10_ParseName_round_trip "xx"); [reflexivity|discriminate].
Defined.

Lemma Parse_bare (m : gostring) :
  ~ In "@"%char m -> ~ In ":"%char m -> ~ In "/"%char m ->
  ParseNameNoDefaults m
  = {| host := ""; namespace := ""; model := m; tag := ""; rawDigest := "" |}.
Proof.
  intros Hat Hc Hs. unfold ParseNameNoDefaults, cutPromised.
  cbn [list_ascii_of_string].
  rewrite (cutLast_absent _ _ Hat). cbn [andb].
  rewrite (cutLast_absent _ _ Hc). cbn [negb].
  rewrite (cutLast_absent _ _ Hs). reflexivity.
Qed.

Lemma Parse_digest_only (d : gostring) :
  d <> [] -> ~ In "@"%char d ->
  ParseNameNoDefaults ("@" ++ d)
  = {| host := ""; namespace := ""; model := ""; tag := ""; rawDigest := d |}.
Proof.
  intros Hd Hat. unfold ParseNameNoDefaults.
  cbn [list_ascii_of_string app].
  rewrite (cutLast_present "@" [] d Hat
             : cutLast ("@"%char :: d) ["@"%char] = ([], d, true)).
  destruct d as [|x d]; [congruence|]. reflexivity.
Qed.

(** X11.  For a valid model part [m], [ParseName m] is the name in the
    default registry and namespace with the default tag, and its string
    is ["registry.ollama.ai/library/" ++ m ++ ":latest"]. *)
Theorem X11_ParseName_bare_model (m : gostring) :
  isValidPart kindModel m = true ->
  ParseName m
  = {| host := "registry.ollama.ai"; namespace := "library"; model := m;
       tag := "latest"; rawDigest := "" |}
  /\ Name.String (ParseName m) = "registry.ollama.ai/library/" ++ m ++ ":latest".
Proof.
  intros Hm.
  assert (Hp : ParseName m
               = {| host := "registry.ollama.ai"; namespace := "library";
                    model := m; tag := "latest"; rawDigest := "" |}).
  { unfold ParseName. rewrite Parse_bare.
    - reflexivity.
    - now apply isValidPart_no_at in Hm.
    - apply isValidPart_no_colon in Hm; [assumption|discriminate].
    - now apply isValidPart_no_slash in Hm. }
  split; [exact Hp|]. rewrite Hp.
  rewrite String_valid.
  - fields. cbn [list_ascii_of_string withSlash withLead app].
    rewrite ?app_nil_r. reflexivity.
  - apply IsValid_true. fields.
    pose proof (isValidPart_nonempty _ _ Hm).
    repeat split; try (now left); try (now right); right; reflexivity.
Qed.

Lemma X11_ParseName_bare_model_witness :
  ParseName "xx"
  = {| host := "registry.ollama.ai"; namespace := "library"; model := "xx";
       tag := "latest"; rawDigest := "" |}
  /\ Name.String (ParseName "xx")
     = "registry.ollama.ai/library/" ++ "xx" ++ ":latest".
Proof.
  apply (X11_ParseName_bare_model "xx"). reflexivity.
Defined.

(** X12.  A name that is only a digest does not survive the defaults:
    for a valid digest part [d], [ParseName ("@" ++ d)] is valid, and
    its string, which has an empty model between ['/'] and [':'], parses
    to a name that is not valid. *)
Theorem X12_digest_only_with_defaults (d : gostring) :
  isValidPart kindDigest d = true ->
  Name.IsValid (ParseName ("@" ++ d)) = true
  /\ Name.String (ParseName ("@" ++ d))
     = "registry.ollama.ai/library/:latest@" ++ d
  /\ Name.IsValid (ParseNameNoDefaults (Name.String (ParseName ("@" ++ d))))
     = false.
Proof.
  intros Hd. pose proof (isValidPart_nonempty _ _ Hd) as Nd.
  pose proof (isValidPart_no_at _ _ Hd) as Hat.
  assert (Hp : ParseName ("@" ++ d)
               = {| host := "registry.ollama.ai"; namespace := "library";
                    model := ""; tag := "latest"; rawDigest := d |}).
  { unfold ParseName. now rewrite Parse_digest_only. }
  assert (Hv : Name.IsValid (ParseName ("@" ++ d)) = true).
  { rewrite Hp. apply IsValid_true. fields.
    repeat split; try (now left); try (now right); right; reflexivity. }
  assert (Hs : Name.String (ParseName ("@" ++ d))
               = "registry.ollama.ai/library/:latest@" ++ d).
  { rewrite (String_valid _ Hv), Hp. fields.
    rewrite (withLead_nonempty _ d Nd). reflexivity. }
  repeat split; [exact Hv|exact Hs|]. rewrite Hs.
  unfold ParseNameNoDefaults.
  change (list_ascii_of_string "registry.ollama.ai/library/:latest@" ++ d)
    with (list_ascii_of_string "registry.ollama.ai/library/:latest"
            ++ "@"%char :: d).
  cbn [list_ascii_of_string] in *.
  rewrite (cutLast_present _ _ _ Hat).
  destruct d as [|x d]; [congruence|].
  match goal with
  | |- ?v = false => destruct v eqn:E; [exfalso|reflexivity]
  end.
  apply IsValid_true in E. destruct E as (_ & _ & _ & Hm & _).
  vm_compute in Hm. destruct Hm as [Hm|Hm]; discriminate.
Qed.

Lemma X12_digest_only_with_defaults_witness :
  Name.IsValid (ParseName ("@" ++ "dd")) = true
  /\ Name.String (ParseName ("@" ++ "dd"))
     = "registry.ollama.ai/library/:latest@" ++ "dd"
  /\ Name.IsValid (ParseNameNoDefaults (Name.String (ParseName ("@" ++ "dd"))))
     = false.
Proof.
  apply (X12_digest_only_with_defaults "dd"). reflexivity.
Defined.

(** ** [Name.MapHash] and [Name.Equal], continued *)

Lemma lowerByte_low (c : ascii) :
  (byte_val (lowerByte c) <? 128) = (byte_val c <? 128).
Proof. destruct c as [[] [] [] [] [] [] [] []]; reflexivity. Qed.

Lemma lowerByte_high (c : ascii) :
  (byte_val c <? 128) = false -> lowerByte c = c.
Proof.
  destruct c as [[] [] [] [] [] [] [] []]; vm_compute; congruence.
Qed.

Lemma isCont_lower (c : ascii) :
  runtime.isCont (lowerByte c) = runtime.isCont c.
Proof. destruct c as [[] [] [] [] [] [] [] []]; reflexivity. Qed.

Lemma lowerByte_cont (c : ascii) :
  runtime.isCont c = true -> lowerByte c = c.
Proof.
  destruct c as [[] [] [] [] [] [] [] []]; vm_compute; congruence.
Qed.

Lemma lowerByte_idem (c : ascii) : lowerByte (lowerByte c) = lowerByte c.
Proof. destruct c as [[] [] [] [] [] [] [] []]; reflexivity. Qed.

(** Folding the case of ASCII letters does not move the boundaries of
    the code points. *)
Lemma runeWidth_lower (s : gostring) :
  runtime.runeWidth (map lowerByte s) = runtime.runeWidth s.
Proof.
  destruct s as [|b0 s]; [reflexivity|].
  cbn [map]. unfold runtime.runeWidth. rewrite lowerByte_low.
  destruct (byte_val b0 <? 128) eqn:E0; [reflexivity|].
  rewrite (lowerByte_high b0 E0).
  destruct s as [|b1 [|b2 [|b3 s]]]; cbn [map]; rewrite ?isCont_lower;
    repeat match goal with
    | |- context [runtime.isCont ?b] =>
        let E := fresh "E" in
        destruct (runtime.isCont b) eqn:E;
        [rewrite ?(lowerByte_cont b E)|]; cbn [andb]
    end; reflexivity.
Qed.

Lemma range_from_lower (s : gostring) :
  forall (i : Z) (skip : nat),
    runtime.range_from i skip (map lowerByte s)
    = map (fun ic => (fst ic, lowerByte (snd ic))) (runtime.range_from i skip s).
Proof.
  induction s as [|c s IH]; intros i skip; [reflexivity|].
  cbn [map runtime.range_from]. destruct skip as [|skip]; [|apply IH].
  change (lowerByte c :: map lowerByte s) with (map lowerByte (c :: s)).
  rewrite runeWidth_lower, IH. reflexivity.
Qed.

Lemma visited_lower (s : gostring) :
  visited (map lowerByte s) = map lowerByte (visited s).
Proof.
  unfold visited, runtime.range. rewrite range_from_lower, !map_map.
  reflexivity.
Qed.

Lemma visited_fold (a b : gostring) :
  map lowerByte a = map lowerByte b ->
  map lowerByte (visited a) = map lowerByte (visited b).
Proof. intros E. now rewrite <- !visited_lower, E. Qed.

(** X13.  [MapHash] and [Equal] do not see the case of ASCII letters:
    two names whose fields are equal byte for byte once ['A'..'Z'] are
    folded to ['a'..'z'] have the same hash and are [Equal]. *)
Theorem X13_Equal_case_insensitive (seed : Z) (rthash : Z -> gostring -> Z)
        (n o : Name) :
  fieldsEqualFold n o ->
  Name.MapHash seed rthash n = Name.MapHash seed rthash o
  /\ Name.Equal seed rthash n o = true.
Proof.
  intros (Hh & Hn & Hm & Ht & Hd).
  assert (E : Name.MapHash seed rthash n = Name.MapHash seed rthash o).
  { rewrite !MapHash_concat, !map_app.
    now rewrite (visited_fold _ _ Hh), (visited_fold _ _ Hn),
      (visited_fold _ _ Hm), (visited_fold _ _ Ht), (visited_fold _ _ Hd). }
  split; [exact E|]. unfold Name.Equal. rewrite E. apply Z.eqb_refl.
Qed.

Lemma X13_Equal_case_insensitive_witness :
  Name.MapHash 0 (fun _ s => len s)
    {| host := ""; namespace := ""; model := "Model"; tag := "";
       rawDigest := "" |}
  = Name.MapHash 0 (fun _ s => len s)
      {| host := ""; namespace := ""; model := "model"; tag := "";
         rawDigest := "" |}
  /\ Name.Equal 0 (fun _ s => len s)
       {| host := ""; namespace := ""; model := "Model"; tag := "";
          rawDigest := "" |}
       {| host := ""; namespace := ""; model := "model"; tag := "";
          rawDigest := "" |} = true.
Proof.
  apply (X13_Equal_case_insensitive 0 (fun _ s => len s)).
  repeat split.
Defined.

Lemma range_from_ascii (s : gostring) :
  forall i : Z,
    Forall (fun c => (byte_val c <? 128) = true) s ->
    map snd (runtime.range_from i 0 s) = s.
Proof.
  induction s as [|c s IH]; intros i Hs; [reflexivity|].
  pose proof (Forall_inv Hs) as Hc. cbv beta in Hc.
  apply Forall_inv_tail in Hs.
  cbn [runtime.range_from map snd]. rewrite (runeWidth_ascii c s Hc).
  cbn [Nat.pred]. now rewrite IH.
Qed.

Lemma okPart_visited (kind : partKind) (p : gostring) :
  okPart kind p -> visited p = p.
Proof.
  intros [->|H]; [reflexivity|].
  apply range_from_ascii. apply isValidPart_chars in H.
  eapply Forall_impl; [|exact H]. intros c. apply partChar_ascii.
Qed.

(** X14.  For a valid name, [MapHash] is the hash of the five fields,
    lower-cased and written one after the other with nothing in
    between. *)
Theorem X14_MapHash_valid (seed : Z) (rthash : Z -> gostring -> Z) (n : Name) :
  Name.IsValid n = true ->
  Name.MapHash seed rthash n
  = rthash seed
      (map lowerByte
         (host n ++ namespace n ++ model n ++ tag n ++ rawDigest n)).
Proof.
  intros Hv. apply IsValid_true in Hv.
  destruct Hv as (_ & Hh & Hn & Hm & Ht & Hd).
  rewrite MapHash_concat.
  now rewrite (okPart_visited _ _ Hh), (okPart_visited _ _ Hn),
    (okPart_visited _ _ Hm), (okPart_visited _ _ Ht), (okPart_visited _ _ Hd).
Qed.

Lemma X14_MapHash_valid_witness :
  Name.MapHash 0 (fun _ s => len s) (ParseNameNoDefaults "nn/Mm:t")
  = (fun _ s => len s) 0
      (map lowerByte
         (host (ParseNameNoDefaults "nn/Mm:t")
          ++ namespace (ParseNameNoDefaults "nn/Mm:t")
          ++ model (ParseNameNoDefaults "nn/Mm:t")
          ++ tag (ParseNameNoDefaults "nn/Mm:t")
          ++ rawDigest (ParseNameNoDefaults "nn/Mm:t"))).
Proof.
  apply (X14_MapHash_valid 0 (fun _ s => len s) (ParseNameNoDefaults "nn/Mm:t")).
  reflexivity.
Defined.




(** ** Digests: encoding and decoding *)

Lemma byte_cases (P : Z -> bool) :
  forallb P (map Z.of_nat (seq 0 256)) = true ->
  forall v, 0 <= v < 256 -> P v = true.
Proof.
  intros H v Hv. rewrite forallb_forall in H. apply H.
  replace v with (Z.of_nat (Z.to_nat v)) by lia.
  apply in_map, in_seq. lia.
Qed.

(** The two digits that [hex.EncodeToString] writes for a byte. *)
Lemma encode_byte (v : Z) :
  0 <= v < 256 ->
  isHexDigit (nth (Z.to_nat (Z.shiftr v 4)) hex.hextable "0"%char) = true
  /\ isHexDigit (nth (Z.to_nat (Z.land v 15)) hex.hextable "0"%char) = true
  /\ Z.lor (Z.shiftl (hex.reverseHexTable
                        (nth (Z.to_nat (Z.shiftr v 4)) hex.hextable "0"%char)) 4)
           (hex.reverseHexTable
              (nth (Z.to_nat (Z.land v 15)) hex.hextable "0"%char)) = v.
Proof.
  intros Hv.
  pose proof (byte_cases
    (fun v =>
       isHexDigit (nth (Z.to_nat (Z.shiftr v 4)) hex.hextable "0"%char)
       && isHexDigit (nth (Z.to_nat (Z.land v 15)) hex.hextable "0"%char)
       && (Z.lor (Z.shiftl (hex.reverseHexTable
                     (nth (Z.to_nat (Z.shiftr v 4)) hex.hextable "0"%char)) 4)
                 (hex.reverseHexTable
                     (nth (Z.to_nat (Z.land v 15)) hex.hextable "0"%char))
           =? v)) ltac:(vm_compute; reflexivity) v Hv) as H.
  cbv beta in H. apply andb_true_iff in H as [H H3].
  apply andb_true_iff in H as [H1 H2]. apply Z.eqb_eq in H3. now repeat split.
Qed.

Lemma EncodeToString_digits (l : list Z) :
  Forall (fun b => 0 <= b < 256) l ->
  Forall (fun c => isHexDigit c = true) (hex.EncodeToString l)
  /\ hexBytes (hex.EncodeToString l) = l.
Proof.
  unfold hex.EncodeToString.
  induction l as [|v l IH]; intros Hl; [split; [constructor|reflexivity]|].
  pose proof (Forall_inv Hl) as Hv. cbv beta in Hv.
  apply Forall_inv_tail in Hl. destruct (IH Hl) as [IH1 IH2].
  destruct (encode_byte v Hv) as (H1 & H2 & H3).
  cbn [flat_map app hexBytes]. split.
  - constructor; [exact H1|]. constructor; [exact H2|exact IH1].
  - now rewrite H3, IH2.
Qed.

Lemma ParseDigest_dash (typ h : gostring) :
  ~ In ":"%char typ -> 
  Forall (fun c => isHexDigit c = true) h ->
  ParseDigest (typ ++ "-" ++ h) = ParseDigest_decode typ h.
Proof.
  intros Htyp Hhex. rewrite Forall_forall in Hhex.
  unfold ParseDigest. cbn [list_ascii_of_string app].
  rewrite cutLast_absent.
  - cbn [negb]. rewrite cutLast_present; [reflexivity|].
    intros Hin. now apply Hhex, isHexDigit_not_sep in Hin.
  - intros Hin. apply in_app_or in Hin as [Hin|[Hin|Hin]];
      [now apply Htyp|discriminate|].
    now apply Hhex, isHexDigit_not_sep in Hin.
Qed.

(** X16.  A [Digest] of the sha256 type is read back from its string:
    [ParseDigest (d.String())] returns [d].  The string of a [Digest]
    of any other type is read as the zero [Digest]. *)
Theorem X16_Digest_round_trip (d : Digest) :
  wf_Digest d ->
  (Type_ d = DigestTypeSHA256 -> ParseDigest (Digest.String d) = Ok d)
  /\ (Type_ d <> DigestTypeSHA256 ->
      ParseDigest (Digest.String d) = Ok Digest.zero).
Proof.
  intros [Hlen Hb].
  destruct (EncodeToString_digits _ Hb) as [Hhex Hback].
  assert (Hs : Digest.String d
               = DigestType.String (Type_ d) ++ "-"
                   ++ hex.EncodeToString (Hash d)).
  { unfold Digest.String. cbn [app list_ascii_of_string].
    now rewrite <- app_assoc. }
  rewrite Hs. unfold DigestType.String. split; intros Ht.
  - rewrite Ht. cbn [Z.eqb DigestTypeSHA256 Pos.eqb].
    rewrite ParseDigest_dash;
      [|cbv; intuition discriminate|exact Hhex].
    unfold ParseDigest_decode. rewrite streq_refl. cbn [negb].
    rewrite Decode_digits;
      [|rewrite EncodeToString_length; lia|exact Hhex].
    cbn [Z.eqb Pos.eqb negb]. rewrite Hback.
    destruct d as [t h]. cbn [Type_ Hash] in *. now subst t.
  - apply Z.eqb_neq in Ht. rewrite Ht.
    rewrite ParseDigest_dash;
      [|cbv; intuition discriminate|exact Hhex].
    reflexivity.
Qed.

Lemma X16_Digest_round_trip_witness :
  ParseDigest (Digest.String {| Type_ := 1; Hash := 171 :: repeat 0 31 |})
  = Ok {| Type_ := 1; Hash := 171 :: repeat 0 31 |}.
Proof.
  apply (X16_Digest_round_trip {| Type_ := 1; Hash := 171 :: repeat 0 31 |}).
  - split; [reflexivity|]. repeat constructor; lia.
  - reflexivity.
Defined.

(** The digit that [hex.EncodeToString] writes for the value of a
    hexadecimal digit is that digit in lower case. *)
Lemma hextable_digit (c : ascii) :
  isHexDigit c = true ->
  0 <= hex.reverseHexTable c < 16
  /\ nth (Z.to_nat (hex.reverseHexTable c)) hex.hextable "0"%char = lowerByte c.
Proof.
  destruct c as [[] [] [] [] [] [] [] []]; vm_compute; intros H;
    try discriminate H; repeat split; discriminate.
Qed.

Lemma nibbles (a b : Z) :
  0 <= a < 16 -> 0 <= b < 16 ->
  Z.shiftr (Z.lor (Z.shiftl a 4) b) 4 = a
  /\ Z.land (Z.lor (Z.shiftl a 4) b) 15 = b.
Proof.
  intros Ha Hb.
  pose proof (byte_cases
    (fun a => forallb (fun b =>
       (a <? 16) && (b <? 16) && 
       ((Z.shiftr (Z.lor (Z.shiftl a 4) b) 4 =? a)
        && (Z.land (Z.lor (Z.shiftl a 4) b) 15 =? b))
       || negb ((a <? 16) && (b <? 16)))
       (map Z.of_nat (seq 0 256)))
    ltac:(vm_compute; reflexivity) a ltac:(lia)) as H.
  cbv beta in H.
  pose proof (byte_cases _ H b ltac:(lia)) as H'. cbv beta in H'.
  destruct (Z.ltb_spec a 16); [|lia]. destruct (Z.ltb_spec b 16); [|lia].
  cbn [andb negb orb] in H'. rewrite orb_false_r in H'.
  apply andb_true_iff in H' as [E1 E2].
  apply Z.eqb_eq in E1, E2. now split.
Qed.

Lemma EncodeToString_hexBytes (k : nat) :
  forall h : gostring,
    List.length h = (2 * k)%nat ->
    Forall (fun c => isHexDigit c = true) h ->
    hex.EncodeToString (hexBytes h) = map lowerByte h.
Proof.
  induction k as [|k IH]; intros h Hlen Hhex.
  - now destruct h.
  - destruct h as [|p [|q h]]; try (exfalso; simpl in Hlen; lia).
    pose proof (Forall_inv Hhex) as Hp.
    pose proof (Forall_inv (Forall_inv_tail Hhex)) as Hq.
    pose proof (Forall_inv_tail (Forall_inv_tail Hhex)) as Hhex'.
    cbv beta in Hp, Hq.
    destruct (hextable_digit p Hp) as [Rp Lp].
    destruct (hextable_digit q Hq) as [Rq Lq].
    destruct (nibbles _ _ Rp Rq) as [N1 N2].
    cbn [hexBytes map]. unfold hex.EncodeToString in *.
    cbn [flat_map app]. rewrite N1, N2, Lp, Lq.
    do 2 f_equal. apply IH; [simpl in Hlen; lia|assumption].
Qed.

(** X17.  The string of a parsed [Digest] is the input in normal form:
    when [ParseDigest s] returns a valid [Digest], [s] is ["sha256"],
    then [':'] or ['-'], then 64 hexadecimal digits, and the string of
    the [Digest] is ["sha256-"] followed by those digits in lower
    case. *)
Theorem X17_Digest_String_normal_form (s : gostring) (d : Digest) :
  ParseDigest s = Ok d ->
  Digest.IsValid d = true ->
  exists (sep : ascii) (h : gostring),
    s = "sha256" ++ sep :: h
    /\ (sep = ":"%char \/ sep = "-"%char)
    /\ List.length h = 64%nat
    /\ Forall (fun c => isHexDigit c = true) h
    /\ Digest.String d = "sha256-" ++ map lowerByte h.
Proof.
  intros Hp Hv.
  apply ParseDigest_returns in Hp as [->|(h & Hs & Hlen & Hhex & ->)];
    [discriminate Hv|].
  assert (Hstr : Digest.String
                   {| Type_ := DigestTypeSHA256; Hash := hexBytes h |}
                 = "sha256-" ++ map lowerByte h).
  { unfold Digest.String. cbn [Type_ Hash].
    rewrite (EncodeToString_hexBytes 32 h Hlen Hhex). reflexivity. }
  destruct Hs as [->| ->].
  - exists ":"%char, h. repeat split; auto.
  - exists "-"%char, h. repeat split; auto.
Qed.

Lemma X17_Digest_String_normal_form_witness :
  exists (sep : ascii) (h : gostring),
    ("sha256:" ++ map (fun c => if Ascii.eqb c "a" then "A"%char else c)
                      validSHA256Hex)
    = "sha256" ++ sep :: h
    /\ (sep = ":"%char \/ sep = "-"%char)
    /\ List.length h = 64%nat
    /\ Forall (fun c => isHexDigit c = true) h
    /\ Digest.String {| Type_ := DigestTypeSHA256;
                        Hash := hexBytes validSHA256Hex |}
       = "sha256-" ++ map lowerByte h.
Proof.
  apply (X17_Digest_String_normal_form
           ("sha256:" ++ map (fun c => if Ascii.eqb c "a" then "A"%char else c)
                             validSHA256Hex)
           {| Type_ := DigestTypeSHA256; Hash := hexBytes validSHA256Hex |});
    reflexivity.
Defined.

(** ** When [ParseDigest] returns and when it panics *)

(** X18.  Whenever [ParseDigest] returns, it returns the zero [Digest]
    or the sha256 [Digest] whose 32 bytes are the 64 hexadecimal digits
    that follow ["sha256:"] or ["sha256-"] in the input; the result
    always holds 32 bytes. *)
Theorem X18_ParseDigest_result (s : gostring) (d : Digest) :
  ParseDigest s = Ok d ->
  wf_Digest d
  /\ (d = Digest.zero
      \/ exists h : gostring,
           (s = "sha256:" ++ h \/ s = "sha256-" ++ h)
           /\ List.length h = 64%nat
           /\ Forall (fun c => isHexDigit c = true) h
           /\ d = {| Type_ := DigestTypeSHA256; Hash := hexBytes h |}).
Proof.
  intros H. split; [exact (ParseDigest_wf s d H)|].
  exact (ParseDigest_returns s d H).
Qed.

Lemma X18_ParseDigest_result_witness :
  wf_Digest {| Type_ := DigestTypeSHA256; Hash := hexBytes validSHA256Hex |}
  /\ ({| Type_ := DigestTypeSHA256; Hash := hexBytes validSHA256Hex |}
      = Digest.zero
      \/ exists h : gostring,
           ("sha256-" ++ validSHA256Hex = "sha256:" ++ h
            \/ "sha256-" ++ validSHA256Hex = "sha256-" ++ h)
           /\ List.length h = 64%nat
           /\ Forall (fun c => isHexDigit c = true) h
           /\ {| Type_ := DigestTypeSHA256; Hash := hexBytes validSHA256Hex |}
              = {| Type_ := DigestTypeSHA256; Hash := hexBytes h |}).
Proof.
  apply (X18_ParseDigest_result ("sha256-" ++ validSHA256Hex)). reflexivity.
Defined.

Lemma isHexDigit_table (c : ascii) :
  (15 <? hex.reverseHexTable c) = negb (isHexDigit c).
Proof.
  destruct (isHexDigit c) eqn:E.
  - now apply reverseHexTable_digit.
  - now apply reverseHexTable_other.
Qed.

(** The loop of [hex.Decode] panics exactly when the source begins with
    one more pair of hexadecimal digits than the buffer has room for. *)
Lemma Decode_loop_panics (todo : list Z) :
  forall (done : list Z) (src : gostring),
    hex.Decode_loop (done ++ todo) (len done) src = Panic <->
    (2 * List.length todo + 2 <= List.length src)%nat
    /\ Forall (fun c => isHexDigit c = true)
              (firstn (2 * List.length todo + 2) src).
Proof.
  induction todo as [|x todo IH]; intros done src.
  - rewrite app_nil_r. cbn [List.length Nat.mul Nat.add].
    destruct src as [|p [|q src]].
    + cbn. split; [discriminate|intros [H _]; lia].
    + cbn [hex.Decode_loop]. destruct (15 <? hex.reverseHexTable p);
        (split; [discriminate|intros [H _]; simpl in H; lia]).
    + cbn [hex.Decode_loop firstn]. rewrite !isHexDigit_table, Z.ltb_irrefl.
      destruct (isHexDigit p) eqn:Ep; cbn [negb].
      * destruct (isHexDigit q) eqn:Eq; cbn [negb].
        -- split; [intros _|reflexivity].
           split; [simpl; lia|]. now repeat constructor.
        -- split; [discriminate|]. intros [_ H].
           apply Forall_inv_tail, Forall_inv in H. congruence.
      * split; [discriminate|]. intros [_ H]. apply Forall_inv in H. congruence.
  - replace (2 * List.length (x :: todo) + 2)%nat
      with (S (S (2 * List.length todo + 2))) by (cbn [List.length]; lia).
    destruct src as [|p [|q src]].
    + cbn. split; [discriminate|intros [H _]; lia].
    + cbn [hex.Decode_loop]. destruct (15 <? hex.reverseHexTable p);
        (split; [discriminate|intros [H _]; simpl in H; lia]).
    + cbn [hex.Decode_loop firstn]. rewrite !isHexDigit_table.
      destruct (isHexDigit p) eqn:Ep; cbn [negb].
      * destruct (isHexDigit q) eqn:Eq; cbn [negb].
        -- assert (Hlt : (len done <? len (done ++ x :: todo)) = true).
           { apply Z.ltb_lt. unfold len. rewrite length_app. simpl. lia. }
           rewrite Hlt. unfold len at 1. rewrite Nat2Z.id, store_at.
           set (v := Z.lor _ _).
           replace (len done + 1) with (len (done ++ [v]))
             by (unfold len; rewrite length_app; simpl; lia).
           change (done ++ v :: todo) with (done ++ [v] ++ todo).
           rewrite app_assoc, IH. cbn [List.length]. split.
           ++ intros [Hl Hf]. split; [lia|]. now repeat constructor.
           ++ intros [Hl Hf]. split; [lia|].
              now apply Forall_inv_tail, Forall_inv_tail in Hf.
        -- split; [discriminate|]. intros [_ H].
           apply Forall_inv_tail, Forall_inv in H. congruence.
      * split; [discriminate|]. intros [_ H]. apply Forall_inv in H. congruence.
Qed.

Lemma ParseDigest_decode_panics (typ hash : gostring) :
  ParseDigest_decode typ hash = Panic <->
  typ = "sha256" /\ (66 <= List.length hash)%nat
  /\ Forall (fun c => isHexDigit c = true) (firstn 66 hash).
Proof.
  unfold ParseDigest_decode.
  destruct (streq typ "sha256") eqn:Et; cbn [negb].
  - apply streq_eq in Et.
    pose proof (Decode_loop_panics (repeat 0 32) [] hash) as H.
    change (hex.Decode_loop ([] ++ repeat 0 32) (len (@nil Z)) hash)
      with (hex.Decode (Hash Digest.zero) hash) in H.
    change (2 * List.length (repeat 0%Z 32) + 2)%nat with 66%nat in H.
    destruct (hex.Decode (Hash Digest.zero) hash) as [[[dst n] [e|]]|].
    + split; [discriminate|]. intros (_ & H1 & H2).
      discriminate (proj2 H (conj H1 H2)).
    + destruct (negb (n =? 32)); (split; [discriminate|]);
        intros (_ & H1 & H2); discriminate (proj2 H (conj H1 H2)).
    + split; [intros _|reflexivity]. split; [exact Et|]. now apply H.
  - apply streq_neq in Et. split; [discriminate|]. intros [E _]. contradiction.
Qed.

Lemma ParseDigest_panics_shape (s : gostring) :
  ParseDigest s = Panic <->
  exists (sep : ascii) (h : gostring),
    s = "sha256" ++ sep :: h
    /\ (sep = ":"%char \/ sep = "-"%char)
    /\ ~ In ":"%char h /\ (sep = "-"%char -> ~ In "-"%char h)
    /\ (66 <= List.length h)%nat
    /\ Forall (fun c => isHexDigit c = true) (firstn 66 h).
Proof.
  split.
  - unfold ParseDigest. cbn [list_ascii_of_string].
    destruct (cutLastP ":"%char s) as [Hc | typ h -> Hh]; cbn [negb].
    + destruct (cutLastP "-"%char s) as [_ | typ h -> Hh]; cbn [negb];
        [discriminate|].
      intros H. apply ParseDigest_decode_panics in H as (-> & Hl & Hf).
      exists "-"%char, h. repeat split; auto.
      intros Hin. apply Hc. apply in_or_app. right. now right.
    + intros H. apply ParseDigest_decode_panics in H as (-> & Hl & Hf).
      exists ":"%char, h. repeat split; auto. intros E. discriminate E.
  - intros (sep & h & -> & Hsep & Hc & Hd & Hl & Hf).
    unfold ParseDigest. cbn [list_ascii_of_string].
    destruct Hsep as [-> | ->].
    + rewrite cutLast_present by assumption. cbn [negb].
      now apply ParseDigest_decode_panics.
    + rewrite cutLast_absent.
      * cbn [negb]. rewrite cutLast_present by auto. cbn [negb].
        now apply ParseDigest_decode_panics.
      * intros Hin. apply in_app_or in Hin as [Hin|[Hin|Hin]];
          [vm_compute in Hin; intuition discriminate|discriminate|auto].
Qed.

Lemma ParseDigest_panics_long (s : gostring) :
  ParseDigest s = Panic -> 73 <= len s.
Proof.
  intros H. apply ParseDigest_panics_shape in H
    as (sep & h & -> & _ & _ & _ & Hl & _).
  unfold len. rewrite length_app. cbn [List.length list_ascii_of_string]. lia.
Qed.

(** X19.  [ParseDigest] panics exactly on the strings made of
    ["sha256"], the separator that it cuts at, and a hash part that
    begins with 66 hexadecimal digits; on every other string it
    returns. *)
Theorem X19_ParseDigest_panics_iff (s : gostring) :
  ParseDigest s = Panic <->
  exists (sep : ascii) (h : gostring),
    s = "sha256" ++ sep :: h
    /\ (sep = ":"%char \/ sep = "-"%char)
    /\ ~ In ":"%char h /\ (sep = "-"%char -> ~ In "-"%char h)
    /\ (66 <= List.length h)%nat
    /\ Forall (fun c => isHexDigit c = true) (firstn 66 h).
Proof. exact (ParseDigest_panics_shape s). Qed.

(** ** Digests in names *)

Lemma hex_partChar (kind : partKind) (c : ascii) :
  isHexDigit c = true -> partChar kind c = true.
Proof.
  intros H. apply isAlphanumeric_partChar. revert H.
  destruct c as [[] [] [] [] [] [] [] []]; vm_compute; congruence.
Qed.

Lemma dash_digest_part (h : gostring) :
  List.length h = 64%nat ->
  Forall (fun c => isHexDigit c = true) h ->
  isValidPart kindDigest ("sha256-" ++ h) = true.
Proof.
  intros Hlen Hhex. apply isValidPart_rule. split.
  - unfold isValidLen, len. rewrite length_app, Hlen. reflexivity.
  - exists "s"%char, ("ha256-" ++ h). split; [reflexivity|].
    split; [reflexivity|]. apply Forall_app. split.
    + repeat constructor.
    + eapply Forall_impl; [|exact Hhex]. intros c. apply hex_partChar.
Qed.

Lemma Parse_model_digest (m d : gostring) :
  isValidPart kindModel m = true -> isValidPart kindDigest d = true ->
  ParseNameNoDefaults (m ++ "@" ++ d)
  = {| host := ""; namespace := ""; model := m; tag := ""; rawDigest := d |}.
Proof.
  intros Hm Hd. unfold ParseNameNoDefaults, cutPromised.
  cbn [list_ascii_of_string app].
  rewrite (cutLast_present _ _ _ (isValidPart_no_at _ _ Hd)).
  pose proof (isValidPart_nonempty _ _ Hd) as Nd.
  destruct d as [|x d]; [congruence|]. cbn [andb streq].
  rewrite (cutLast_absent ":" m)
    by (apply (isValidPart_no_colon kindModel); [discriminate|assumption]).
  cbn [negb].
  rewrite (cutLast_absent "/" m) by (now apply isValidPart_no_slash in Hm).
  reflexivity.
Qed.

(** X20.  A digest given in the dash form is accepted: for a valid model
    part [m] and 64 hexadecimal digits [h], the name parsed from
    [m ++ "@sha256-" ++ h] is valid, formats back to that string, and
    its [Digest()] is the sha256 [Digest] of the bytes of [h]. *)
Theorem X20_dash_digest_name (m h : gostring) :
  isValidPart kindModel m = true ->
  List.length h = 64%nat ->
  Forall (fun c => isHexDigit c = true) h ->
  Name.IsValid (ParseNameNoDefaults (m ++ "@" ++ "sha256-" ++ h)) = true
  /\ Name.String (ParseNameNoDefaults (m ++ "@" ++ "sha256-" ++ h))
     = m ++ "@" ++ "sha256-" ++ h
  /\ Name.Digest (ParseNameNoDefaults (m ++ "@" ++ "sha256-" ++ h))
     = Ok {| Type_ := DigestTypeSHA256; Hash := hexBytes h |}.
Proof.
  intros Hm Hlen Hhex. pose proof (dash_digest_part h Hlen Hhex) as Hd.
  assert (Hv : Name.IsValid
                 (ParseNameNoDefaults (m ++ "@" ++ "sha256-" ++ h)) = true).
  { rewrite (Parse_model_digest _ _ Hm Hd). apply IsValid_true. fields.
    pose proof (isValidPart_nonempty _ _ Hm).
    repeat split; try (now left); try (now right). }
  split; [exact Hv|]. split; [exact (String_Parse _ Hv)|].
  rewrite (Parse_model_digest _ _ Hm Hd). unfold Name.Digest. fields.
  change (list_ascii_of_string "sha256-" ++ h)
    with (list_ascii_of_string "sha256" ++ "-" ++ h).
  rewrite (ParseDigest_dash "sha256" h);
    [|cbv; intuition discriminate|exact Hhex].
  unfold ParseDigest_decode. rewrite streq_refl. cbn [negb].
  now rewrite (Decode_digits h Hlen Hhex).
Qed.

Lemma X20_dash_digest_name_witness :
  Name.IsValid
    (ParseNameNoDefaults ("model" ++ "@" ++ "sha256-" ++ validSHA256Hex)) = true
  /\ Name.String
       (ParseNameNoDefaults ("model" ++ "@" ++ "sha256-" ++ validSHA256Hex))
     = "model" ++ "@" ++ "sha256-" ++ validSHA256Hex
  /\ Name.Digest
       (ParseNameNoDefaults ("model" ++ "@" ++ "sha256-" ++ validSHA256Hex))
     = Ok {| Type_ := DigestTypeSHA256; Hash := hexBytes validSHA256Hex |}.
Proof.
  apply (X20_dash_digest_name "model" validSHA256Hex).
  - reflexivity.
  - reflexivity.
  - repeat constructor.
Defined.

(** X21.  In a valid name whose [Digest()] is valid, the raw digest is
    ["sha256-"] followed by 64 hexadecimal digits: the colon form never
    occurs in a valid name. *)
Theorem X21_valid_name_valid_digest (n : Name) (d : Digest) :
  Name.IsValid n = true ->
  Name.Digest n = Ok d ->
  Digest.IsValid d = true ->
  exists h : gostring,
    rawDigest n = "sha256-" ++ h
    /\ List.length h = 64%nat
    /\ Forall (fun c => isHexDigit c = true) h
    /\ d = {| Type_ := DigestTypeSHA256; Hash := hexBytes h |}.
Proof.
  intros Hv Hp Hd. unfold Name.Digest in Hp.
  apply ParseDigest_returns in Hp as [->|(h & Hs & Hlen & Hhex & ->)];
    [discriminate Hd|].
  apply IsValid_true in Hv. destruct Hv as (_ & _ & _ & _ & _ & Hr).
  destruct Hs as [Hs|Hs].
  - exfalso. apply (okPart_no_colon kindDigest) in Hr; [|discriminate].
    apply Hr. rewrite Hs. apply in_or_app. left. vm_compute. tauto.
  - exists h. now repeat split.
Qed.

Lemma X21_valid_name_valid_digest_witness :
  exists h : gostring,
    rawDigest (ParseNameNoDefaults ("mm@sha256-" ++ validSHA256Hex))
    = "sha256-" ++ h
    /\ List.length h = 64%nat
    /\ Forall (fun c => isHexDigit c = true) h
    /\ {| Type_ := DigestTypeSHA256; Hash := hexBytes validSHA256Hex |}
       = {| Type_ := DigestTypeSHA256; Hash := hexBytes h |}.
Proof.
  apply (X21_valid_name_valid_digest
           (ParseNameNoDefaults ("mm@sha256-" ++ validSHA256Hex))
           {| Type_ := DigestTypeSHA256; Hash := hexBytes validSHA256Hex |});
    reflexivity.
Defined.

(** X22.  [Digest()] of a name panics only on a raw digest of at least
    73 bytes; a name whose raw digest is shorter always has a
    [Digest()]. *)
Theorem X22_Digest_short_returns (n : Name) :
  len (rawDigest n) < 73 -> exists d, Name.Digest n = Ok d.
Proof.
  intros Hl. unfold Name.Digest.
  destruct (ParseDigest (rawDigest n)) as [d|] eqn:E; [now exists d|].
  exfalso. apply ParseDigest_panics_long in E. lia.
Qed.

Lemma X22_Digest_short_returns_witness :
  exists d, Name.Digest (ParseNameNoDefaults "mm@dd") = Ok d.
Proof.
  apply (X22_Digest_short_returns (ParseNameNoDefaults "mm@dd")).
  reflexivity.
Defined.

(** ** [IsValidShort], continued *)

(** X23.  [IsValidShort ns m] holds exactly when [ns] is not empty and
    the name with namespace [ns] and model [m] only is valid. *)
Theorem X23_IsValidShort_iff (ns m : gostring) :
  IsValidShort ns m = true <->
  ns <> []
  /\ Name.IsValid {| host := ""; namespace := ns; model := m; tag := "";
                     rawDigest := "" |} = true.
Proof.
  destruct ns as [|c ns].
  - split; [discriminate|]. intros [H _]. now elim H.
  - rewrite (IsValidShort_nonempty (c :: ns) m) by discriminate.
    split; [intros H; split; [discriminate|exact H]|now intros [_ H]].
Qed.

(** ** A host with a port *)

(** X24.  A host that holds [':'] is read as a host only when a tag
    follows: for valid parts [h], [ns] and [m] with [':'] in [h], the
    string [h/ns/m] does not parse to a valid name, and [h/ns/m:t]
    parses to host [h], namespace [ns], model [m] and tag [t] for every
    valid tag [t]. *)
Theorem X24_host_port_needs_tag (h ns m : gostring) :
  isValidPart kindHost h = true ->
  isValidPart kindNamespace ns = true ->
  isValidPart kindModel m = true ->
  In ":"%char h ->
  Name.IsValid (ParseNameNoDefaults (h ++ "/" ++ ns ++ "/" ++ m)) = false
  /\ forall t : gostring,
       isValidPart kindTag t = true ->
       ParseNameNoDefaults (h ++ "/" ++ ns ++ "/" ++ m ++ ":" ++ t)
       = {| host := h; namespace := ns; model := m; tag := t;
            rawDigest := "" |}.
Proof.
  intros Hh Hns Hm Hin.
  pose proof (isValidPart_nonempty _ _ Hh) as Nh.
  pose proof (isValidPart_nonempty _ _ Hns) as Nns.
  pose proof (isValidPart_nonempty _ _ Hm) as Nm.
  split.
  - destruct (split_last ":" h) as [Hn | (h1 & h2 & Eh & Hh2)];
      [contradiction|].
    set (t := h2 ++ "/" ++ ns ++ "/" ++ m).
    assert (Es : h ++ "/" ++ ns ++ "/" ++ m = h1 ++ ":"%char :: t).
    { unfold t. rewrite Eh, <- app_assoc. reflexivity. }
    assert (Ht : ~ In ":"%char t).
    { unfold t. cbn [list_ascii_of_string]. intros H.
      apply in_app_or in H as [H|H]; [now apply Hh2|].
      apply in_app_or in H as [[H|[]]|H]; [discriminate|].
      apply in_app_or in H as [H|H];
        [apply (isValidPart_no_colon kindNamespace) in Hns;
           [now apply Hns|discriminate]|].
      apply in_app_or in H as [[H|[]]|H]; [discriminate|].
      apply (isValidPart_no_colon kindModel) in Hm;
        [now apply Hm|discriminate]. }
    assert (Hat : ~ In "@"%char (h ++ "/" ++ ns ++ "/" ++ m)).
    { cbn [list_ascii_of_string]. intros H.
      apply in_app_or in H as [H|H]; [now apply isValidPart_no_at in Hh|].
      apply in_app_or in H as [[H|[]]|H]; [discriminate|].
      apply in_app_or in H as [H|H]; [now apply isValidPart_no_at in Hns|].
      apply in_app_or in H as [[H|[]]|H]; [discriminate|].
      now apply isValidPart_no_at in Hm. }
    match goal with
    | |- ?v = false => destruct v eqn:Hv; [exfalso|reflexivity]
    end.
    rewrite ParseNameNoDefaults_path in Hv. unfold cutPromised in Hv.
    cbn [list_ascii_of_string] in Hv, Es, Hat.
    rewrite (cutLast_absent _ _ Hat) in Hv. cbn [andb] in Hv.
    rewrite Es, (cutLast_present _ _ _ Ht) in Hv. cbn [negb] in Hv.
    apply IsValid_true in Hv. destruct Hv as (_ & _ & _ & _ & Htag & _).
    destruct (parsePath_tag (cmp.Or h1 MissingPart) (cmp.Or t MissingPart) [])
      as [Etag _].
    rewrite Etag in Htag. apply okPart_Or in Htag as [_ Htag].
    apply isValidPart_no_slash in Htag. apply Htag.
    unfold t. apply in_or_app. right. now left.
  - intros t Ht. pose proof (isValidPart_nonempty _ _ Ht) as Nt.
    set (n := {| host := h; namespace := ns; model := m; tag := t;
                 rawDigest := "" |}).
    assert (Hv : Name.IsValid n = true).
    { apply IsValid_true. unfold n. fields.
      repeat split; try (now left); now right. }
    assert (Hs : Name.String n = h ++ "/" ++ ns ++ "/" ++ m ++ ":" ++ t).
    { rewrite (String_valid n Hv). unfold n. fields.
      rewrite !withSlash_nonempty, withLead_nonempty by assumption.
      cbn [withLead list_ascii_of_string]. rewrite <- !app_assoc, app_nil_r.
      reflexivity. }
    rewrite <- Hs. apply parse_string_canonical; [exact Hv|].
    unfold canonical, n. fields. repeat split; congruence.
Qed.

Lemma X24_host_port_needs_tag_witness :
  Name.IsValid
    (ParseNameNoDefaults ("host:8080" ++ "/" ++ "nn" ++ "/" ++ "mm")) = false
  /\ forall t : gostring,
       isValidPart kindTag t = true ->
       ParseNameNoDefaults ("host:8080" ++ "/" ++ "nn" ++ "/" ++ "mm" ++ ":" ++ t)
       = {| host := "host:8080"; namespace := "nn"; model := "mm"; tag := t;
            rawDigest := "" |}.
Proof.
  apply (X24_host_port_needs_tag "host:8080" "nn" "mm");
    try reflexivity.
  vm_compute. tauto.
Defined.
